(** * Term-at-a-time TF-IDF scoring (practicum-1, 3_Taat_scoring.ipynb)

    A shallow embedding of the notebook: the index builder, the [InvIndex]
    accessor, [idf], the document-norm precomputation, [score_tt] and the
    display loop, followed by the properties of the specification.

    Numbers.  Python [int]s are [Z] (or [nat] for positions and lengths).
    Python [float]s are written twice.  The cells are first written over
    the real numbers [R]: [/] is true division, [math.log] is [ln],
    [math.sqrt] is [sqrt].  This is the arithmetic the notebook's formulas
    are meant in; IEEE rounding is not part of it, and it carries the
    properties that rounding leaves alone: which exception is raised, which
    keys a mapping has, the integer tables, and the worked example, whose
    scores stay away from every rounding boundary.  The module [F64] then
    writes the same cells over IEEE binary64, the arithmetic Python computes
    in; it carries every statement that depends on the last bit of a float.
    Operations that raise in Python ([/] by zero, [math.log] of a
    non-positive number, [math.sqrt] of a negative number, [d[k]] on a
    missing key) return [Raise] in the [result] monad.

    Dictionaries.  A Python 3.6 [dict] iterates in insertion order, so it is
    an association list with unique keys in insertion order: assignment to an
    existing key updates in place, assignment to a new key appends. *)

From Stdlib Require Import Reals Lra Lia ZArith List String Ascii Bool.
From Stdlib Require Import Permutation DecimalString Sorted.
From Stdlib Require Floats.PrimFloat Floats.FloatOps Floats.SpecFloat.
Import ListNotations.

(** ** Exceptions and the result monad *)

Inductive exn : Type :=
| ZeroDivisionError
| ValueError
| KeyError.

Inductive result (A : Type) : Type :=
| Ok (a : A)
| Raise (e : exn).

Arguments Ok {A} a.
Arguments Raise {A} e.

Definition bind {A B : Type} (c : result A) (k : A -> result B) : result B :=
  match c with
  | Ok a => k a
  | Raise e => Raise e
  end.

Notation "x <- c ;; k" := (bind c (fun x => k))
  (at level 61, c at next level, right associativity).

(** A [for] loop whose body may raise: the first exception ends the loop. *)
Fixpoint foldM {A B : Type} (f : A -> B -> result A) (l : list B) (a : A)
  : result A :=
  match l with
  | [] => Ok a
  | x :: r => a' <- f a x ;; foldM f r a'
  end.

(** ** Insertion-ordered dictionaries *)

Class EqDec (K : Type) := eq_dec : forall x y : K, {x = y} + {x <> y}.

#[global] Instance string_EqDec : EqDec string := string_dec.
#[global] Instance nat_EqDec : EqDec nat := Nat.eq_dec.

Definition Dict (K V : Type) : Type := list (K * V).

Module Dict.
Section Ops.
Context {K V : Type} `{EqDec K}.

(** [d.get(k)] *)
Fixpoint get (k : K) (d : Dict K V) : option V :=
  match d with
  | [] => None
  | (k', v) :: r => if eq_dec k k' then Some v else get k r
  end.

(** [d.get(k, dflt)] *)
Definition get_default (k : K) (dflt : V) (d : Dict K V) : V :=
  match get k d with
  | Some v => v
  | None => dflt
  end.

(** [d[k]], which raises [KeyError] on a missing key *)
Definition subscript (k : K) (d : Dict K V) : result V :=
  match get k d with
  | Some v => Ok v
  | None => Raise KeyError
  end.

(** [d[k] = v] *)
Fixpoint set (k : K) (v : V) (d : Dict K V) : Dict K V :=
  match d with
  | [] => [(k, v)]
  | (k', v') :: r =>
      if eq_dec k k' then (k, v) :: r else (k', v') :: set k v r
  end.

Definition keys (d : Dict K V) : list K := map fst d.
Definition items (d : Dict K V) : list (K * V) := d.
End Ops.
End Dict.

(** ** The term-document matrix and the document count *)

Open Scope string_scope.
Open Scope list_scope.

Definition td_matrix : Dict string (list Z) :=
  [ ("beijing", [0; 1; 0; 0; 1]%Z);
    ("dish",    [0; 1; 0; 0; 1]%Z);
    ("duck",    [3; 2; 2; 0; 1]%Z);
    ("rabbit",  [0; 0; 1; 1; 0]%Z);
    ("recipe",  [0; 0; 1; 1; 1]%Z);
    ("roast",   [0; 0; 0; 0; 0]%Z) ].

Definition NUM_DOCS : nat := 5.

(** ** Index builder *)

Abbreviation postings_t := (list (nat * Z)) (only parsing).

(** [enumerate(vec)] *)
Definition enumerate {A : Type} (vec : list A) : list (nat * A) :=
  combine (seq 0 (List.length vec)) vec.

(** The body of the inner loop.  [inv_idx[term]] was bound by the
    assignment that precedes the loop, so reading it cannot raise. *)
Definition index_entry (term : string)
    (st : Dict string postings_t * Dict nat Z) (p : nat * Z)
  : Dict string postings_t * Dict nat Z :=
  let '(inv_idx, doclen) := st in
  let '(doc_id, freq) := p in
  if (0 <? freq)%Z then
    (Dict.set term (Dict.get_default term [] inv_idx ++ [(doc_id, freq)]) inv_idx,
     Dict.set doc_id (Dict.get_default doc_id 0%Z doclen + freq)%Z doclen)
  else st.

(** The body of the outer loop. *)
Definition index_term (st : Dict string postings_t * Dict nat Z)
    (tv : string * list Z) : Dict string postings_t * Dict nat Z :=
  let '(term, vec) := tv in
  fold_left (index_entry term) (enumerate vec)
            (Dict.set term [] (fst st), snd st).

Definition build_index (m : Dict string (list Z))
  : Dict string postings_t * Dict nat Z :=
  fold_left index_term (Dict.items m) ([], []).

Definition inv_idx : Dict string postings_t := fst (build_index td_matrix).
Definition doclen : Dict nat Z := snd (build_index td_matrix).

(** ** Index accessor *)

Record InvIndex : Type := mkInvIndex { self_idx : Dict string postings_t }.

Definition terms (self : InvIndex) : list string := Dict.keys (self_idx self).

Definition postings (self : InvIndex) (term : string) : postings_t :=
  Dict.get_default term [] (self_idx self).

Definition idx : InvIndex := mkInvIndex inv_idx.

(** ** Arithmetic that may raise *)

(** The operations of this section are the exact ones; their binary64
    counterparts are [F64.int_div], [F64.float_div], [F64.math_sqrt] and
    [F64.math_log]. *)

Open Scope R_scope.

(** [x / y] *)
Definition py_div (x y : R) : result R :=
  if Req_dec_T y 0 then Raise ZeroDivisionError else Ok (x / y).

(** [math.log(x)]: the natural logarithm *)
Definition math_log (x : R) : result R :=
  if Rlt_dec 0 x then Ok (ln x) else Raise ValueError.

(** [math.log10(x)]: the logarithm the specification names *)
Definition math_log10 (x : R) : result R :=
  if Rlt_dec 0 x then Ok (ln x / ln 10) else Raise ValueError.

(** [math.sqrt(x)] *)
Definition math_sqrt (x : R) : result R :=
  if Rlt_dec x 0 then Raise ValueError else Ok (sqrt x).

(** ** IDF *)

(** [idf], with the logarithm it calls as a parameter. *)
Definition idf_with (log : R -> result R) (index : InvIndex) (term : string)
  : result R :=
  if (0 <? List.length (postings index term))%nat then
    q <- py_div (INR NUM_DOCS) (INR (List.length (postings index term))) ;;
    log q
  else Ok 0.

(** The notebook's [idf]: it calls [math.log]. *)
Definition idf : InvIndex -> string -> result R := idf_with math_log.

(** The specification's IDF, written from its words:
    [log10(N / document_frequency(term))], and 0 when the frequency is 0. *)
Definition idf_spec : InvIndex -> string -> result R := idf_with math_log10.

(** ** Document norms and the scorer *)

(** The cells in exact arithmetic; [F64.docnorm_entry], [F64.qnorm_term] and
    [F64.score_entry] are the same loop bodies over binary64. *)

Section Scorer.
Variable index : InvIndex.
Variable doc_len : Dict nat Z.
Variable idf_fn : string -> result R.

(** The body of the summation loop of the docnorm cell. *)
Definition docnorm_entry (term : string) (docnorm : Dict nat R)
    (p : nat * Z) : result (Dict nat R) :=
  let '(doc_id, freq) := p in
  len <- Dict.subscript doc_id doc_len ;;
  tf <- py_div (IZR freq) (IZR len) ;;
  i <- idf_fn term ;;
  let tfidf := tf * i in
  Ok (Dict.set doc_id (Dict.get_default doc_id 0 docnorm + tfidf ^ 2) docnorm).

Definition docnorm_term (docnorm : Dict nat R) (term : string)
  : result (Dict nat R) :=
  foldM (docnorm_entry term) (postings index term) docnorm.

(** The body of the square-root loop. *)
Definition docnorm_sqrt (docnorm : Dict nat R) (doc_id : nat)
  : result (Dict nat R) :=
  v <- Dict.subscript doc_id docnorm ;;
  s <- math_sqrt v ;;
  Ok (Dict.set doc_id s docnorm).

Definition compute_docnorm : result (Dict nat R) :=
  sums <- foldM docnorm_term (terms index) [] ;;
  foldM docnorm_sqrt (Dict.keys sums) sums.

Variable doc_norm : Dict nat R.

(** The body of the query-normalizer loop.  [set(query)] is the query
    without its repetitions; the order in which a set is visited is not
    fixed by Python, and in exact arithmetic the sum does not depend on
    it. *)
Definition qnorm_term (query : list string) (qnorm : R) (term : string)
  : result R :=
  tf <- py_div (INR (count_occ string_dec query term)) (INR (List.length query)) ;;
  i <- idf_fn term ;;
  let tfidf := tf * i in
  Ok (qnorm + tfidf ^ 2).

Definition compute_qnorm (query : list string) : result R :=
  qnorm <- foldM (qnorm_term query) (nodup string_dec query) 0 ;;
  math_sqrt qnorm.

(** The body of the inner scoring loop. *)
Definition score_entry (query : list string) (qnorm : R) (term : string)
    (scores : Dict nat R) (p : nat * Z) : result (Dict nat R) :=
  let '(doc_id, freq) := p in
  len <- Dict.subscript doc_id doc_len ;;
  tf_td <- py_div (IZR freq) (IZR len) ;;
  i_td <- idf_fn term ;;
  let tfidf_td := tf_td * i_td in
  tf_tq <- py_div 1 (INR (List.length query)) ;;
  i_tq <- idf_fn term ;;
  let tfidf_tq := tf_tq * i_tq in
  dn <- Dict.subscript doc_id doc_norm ;;
  score_term <- py_div (tfidf_tq * tfidf_td) (qnorm * dn) ;;
  Ok (Dict.set doc_id (Dict.get_default doc_id 0 scores + score_term) scores).

Definition score_term_loop (query : list string) (qnorm : R)
    (scores : Dict nat R) (term : string) : result (Dict nat R) :=
  foldM (score_entry query qnorm term) (postings index term) scores.

Definition score_tt_with (query : list string) : result (Dict nat R) :=
  qnorm <- compute_qnorm query ;;
  foldM (score_term_loop query qnorm) query [].
End Scorer.

(** The notebook's cells, in order: the document norms are computed once
    (that cell may raise), then [score_tt] reads them. *)
Definition docnorm : result (Dict nat R) := compute_docnorm idx doclen (idf idx).

Definition score_tt (query : list string) : result (Dict nat R) :=
  dn <- docnorm ;;
  score_tt_with idx doclen (idf idx) dn query.

(** The same pipeline with the specification's base-10 IDF. *)
Definition docnorm_spec : result (Dict nat R) :=
  compute_docnorm idx doclen (idf_spec idx).

Definition score_tt_spec (query : list string) : result (Dict nat R) :=
  dn <- docnorm_spec ;;
  score_tt_with idx doclen (idf_spec idx) dn query.

(** ** Display loop *)

(** [sorted(scores.items(), key=lambda x: x[1], reverse=True)]: a stable sort
    by descending score, written as an insertion sort from the right, so
    that items with equal scores keep the order of [scores.items()]. *)
Fixpoint insert_desc (x : nat * R) (l : list (nat * R)) : list (nat * R) :=
  match l with
  | [] => [x]
  | y :: r =>
      if Rlt_dec (snd x) (snd y) then y :: insert_desc x r else x :: y :: r
  end.

Definition sorted_desc (l : list (nat * R)) : list (nat * R) :=
  fold_right insert_desc [] l.

(** Rounding to the nearest integer, ties to the even one. *)
Definition round_half_even (x : R) : Z :=
  let n := Int_part x in
  let f := frac_part x in
  if Rlt_dec f (1 / 2) then n
  else if Rlt_dec (1 / 2) f then (n + 1)%Z
  else if Z.even n then n else (n + 1)%Z.

(** [round(score, 3)], as a number of thousandths. *)
Definition round3 (x : R) : Z := round_half_even (x * 1000).

(** [str(n)] for a non-negative [int] *)
Definition str_nat (n : nat) : string := NilEmpty.string_of_uint (Nat.to_uint n).

(** The digits after the point of a number of thousandths below 1000,
    without trailing zeros but with at least one digit. *)
Definition frac_digits (m : nat) : string :=
  let d1 := str_nat (m / 100) in
  let d2 := str_nat ((m / 10) mod 10) in
  let d3 := str_nat (m mod 10) in
  if (m mod 10 =? 0)%nat then
    if ((m / 10) mod 10 =? 0)%nat then d1 else (d1 ++ d2)%string
  else (d1 ++ d2 ++ d3)%string.

(** What [print] shows for a float equal to [m] thousandths (the shortest
    decimal that reads back as the same float), for magnitudes below 1e16. *)
Definition repr_milli (m : Z) : string :=
  let a := Z.to_nat (Z.abs m) in
  ((if (m <? 0)%Z then "-" else "")
     ++ str_nat (a / 1000) ++ "." ++ frac_digits (a mod 1000))%string.

(** [print("D" + str(doc_id + 1) + ":", round(score, 3))] *)
Definition display_line (item : nat * R) : string :=
  ("D" ++ str_nat (fst item + 1) ++ ":" ++ " " ++ repr_milli (round3 (snd item)))%string.

Definition display (scores : Dict nat R) : list string :=
  map display_line (sorted_desc (Dict.items scores)).

(** ** Auxiliary definitions used to state the properties *)

(** The idiom [d[k] = d.get(k, 0) + v], for one pair and for a list of pairs. *)
Section Accumulate.
Context {K V : Type} `{EqDec K}.
Variable add : V -> V -> V.
Variable zero : V.

Definition accum_step (d : Dict K V) (kv : K * V) : Dict K V :=
  Dict.set (fst kv) (add (Dict.get_default (fst kv) zero d) (snd kv)) d.

Definition accum (l : list (K * V)) (d : Dict K V) : Dict K V :=
  fold_left accum_step l d.

(** What the pairs of [l] with key [k] add to [init], from left to right. *)
Definition sum_for (k : K) (l : list (K * V)) (init : V) : V :=
  fold_left (fun s kv => if eq_dec k (fst kv) then add s (snd kv) else s) l init.
End Accumulate.

Definition Rsum (l : list R) : R := fold_right Rplus 0 l.
Definition Zsum (l : list Z) : Z := fold_right Z.add 0%Z l.

(** The values of the pairs of [l] whose key is [k]. *)
Definition values_at {K V : Type} `{EqDec K} (k : K) (l : list (K * V)) : list V :=
  map snd (filter (fun kv => if eq_dec k (fst kv) then true else false) l).

(** The postings a frequency vector gives rise to. *)
Definition pos_entries (vec : list Z) : postings_t :=
  filter (fun p => (0 <? snd p)%Z) (enumerate vec).

(** All the postings of a matrix, in the order the builder meets them. *)
Definition all_entries (m : Dict string (list Z)) : list (nat * Z) :=
  flat_map (fun tv => pos_entries (snd tv)) m.

(** The sum of the frequencies recorded for [d] in every posting list. *)
Definition total_recorded (d : nat) (inv : Dict string postings_t) : Z :=
  Zsum (map (fun tp => Zsum (values_at d (snd tp))) (Dict.items inv)).

(** The value [idf] returns when it does not raise. *)
Definition idf_val (index : InvIndex) (term : string) : R :=
  if (0 <? List.length (postings index term))%nat
  then ln (INR NUM_DOCS / INR (List.length (postings index term)))
  else 0.

(** Every value of a dictionary multiplied by [c]. *)
Definition scale (c : R) (d : Dict nat R) : Dict nat R :=
  map (fun kv => (fst kv, c * snd kv)) d.

Definition fmap {A B : Type} (g : A -> B) (c : result A) : result B :=
  x <- c ;; Ok (g x).

(** A loop body applied to every item of a list, in order. *)
Fixpoint mapM {A B : Type} (f : A -> result B) (l : list A) : result (list B) :=
  match l with
  | [] => Ok []
  | x :: r => y <- f x ;; ys <- mapM f r ;; Ok (y :: ys)
  end.

(** One step of the square-root loop, on an item. *)
Definition sqrt_item (kv : nat * R) : result (nat * R) :=
  s <- math_sqrt (snd kv) ;; Ok (fst kv, s).

(** The loops of the scorer when nothing raises: the pairs they accumulate. *)
Section PureScorer.
Variable index : InvIndex.
Variable doc_len : Dict nat Z.
Variable w : string -> R.

Definition tfidf_td (term : string) (p : nat * Z) : R :=
  IZR (snd p) / IZR (Dict.get_default (fst p) 0%Z doc_len) * w term.

Definition docnorm_pairs : list (nat * R) :=
  flat_map (fun term => map (fun p => (fst p, tfidf_td term p ^ 2))
                            (postings index term))
           (terms index).

Definition docnorm_val : Dict nat R :=
  map (fun kv => (fst kv, sqrt (snd kv))) (accum Rplus 0 docnorm_pairs []).

Definition qnorm_sq (query : list string) : R :=
  fold_left (fun s term =>
               s + (INR (count_occ string_dec query term)
                    / INR (List.length query) * w term) ^ 2)
            (nodup string_dec query) 0.

Definition qnorm_val (query : list string) : R := sqrt (qnorm_sq query).

Variable doc_norm : Dict nat R.

Definition score_pair (n : nat) (qnorm : R) (term : string) (p : nat * Z)
  : nat * R :=
  (fst p,
   (1 / INR n * w term) * tfidf_td term p
   / (qnorm * Dict.get_default (fst p) 0 doc_norm)).

Definition score_pairs (n : nat) (qnorm : R) (query : list string)
  : list (nat * R) :=
  flat_map (fun term => map (score_pair n qnorm term) (postings index term))
           query.

Definition score_val (query : list string) : Dict nat R :=
  accum Rplus 0
    (score_pairs (List.length query) (qnorm_val query) query) [].
End PureScorer.

(** The document norms of the notebook when the docnorm cell does not raise. *)
Definition docnorm_table : Dict nat R := docnorm_val idx doclen (idf_val idx).

(** Partial sums of the exponential series, used to bound logarithms:
    [exp_term x k] is [x^k / k!] and [exp_psum x n] the sum up to [k = n]. *)
Fixpoint exp_term (x : R) (k : nat) : R :=
  match k with
  | O => 1
  | S k' => exp_term x k' * x / INR (S k')
  end.

Fixpoint exp_psum (x : R) (n : nat) : R :=
  match n with
  | O => 1
  | S n' => exp_psum x n' + exp_term x (S n')
  end.

(** The query normalizer and the document norms of the worked example, as
    the code computes them from [a = idf("beijing")], [b = idf("duck")] and
    [c = idf("recipe")] (documents in the order of the norm table). *)
Definition ex_qnorm (a b c : R) : R :=
  sqrt (0 + (1 / 3 * a) ^ 2 + (1 / 3 * b) ^ 2 + (1 / 3 * c) ^ 2).
Definition ex_docnorm1 (a b c : R) : R :=
  sqrt (0 + (1 / 4 * a) ^ 2 + (1 / 4 * a) ^ 2 + (2 / 4 * b) ^ 2).
Definition ex_docnorm4 (a b c : R) : R :=
  sqrt (0 + (1 / 4 * a) ^ 2 + (1 / 4 * a) ^ 2 + (1 / 4 * b) ^ 2 + (1 / 4 * c) ^ 2).
Definition ex_docnorm0 (a b c : R) : R :=
  sqrt (0 + (3 / 3 * b) ^ 2).
Definition ex_docnorm2 (a b c : R) : R :=
  sqrt (0 + (2 / 4 * b) ^ 2 + (1 / 4 * a) ^ 2 + (1 / 4 * c) ^ 2).
Definition ex_docnorm3 (a b c : R) : R :=
  sqrt (0 + (1 / 2 * a) ^ 2 + (1 / 2 * c) ^ 2).

(** The notebook's cells from the docnorm cell to [score_tt], run on the
    index and the lengths built from a matrix [m] in place of [td_matrix]. *)
Definition run_cells (m : Dict string (list Z)) (query : list string)
  : result (Dict nat R) :=
  dn <- compute_docnorm (mkInvIndex (fst (build_index m))) (snd (build_index m))
                        (idf (mkInvIndex (fst (build_index m)))) ;;
  score_tt_with (mkInvIndex (fst (build_index m))) (snd (build_index m))
                (idf (mkInvIndex (fst (build_index m)))) dn query.

(** ** The cells over IEEE binary64 *)

(** Python's [float] is an IEEE 754 binary64 number.  The module below
    writes the same cells over Rocq's primitive floats, whose [+], [*], [/]
    and square root round to nearest, ties to even, as the hardware Python
    runs on does.  Three operations of the cells are none of these
    primitives:
    - [a / b] on two [int]s rounds the exact quotient once, also when [a] or
      [b] is too large for a float ([int_div]);
    - [x ** 2] calls the C library's [pow]; it is taken as the correctly
      rounded square [x * x];
    - [math.log] and [math.log10] call the C library; they are tabulated at
      the quotients [5 / n] the notebook's [idf] can form ([log_table],
      [log10_table]).
    [set(query)] is visited in an order Python does not fix: the scorer takes
    the visiting order [qset] as an argument, and the statements quantify
    over it. *)

Module F64.
Import PrimFloat FloatOps SpecFloat.
#[local] Open Scope float_scope.

(** An [int] as an exact number for [SFdiv] (no rounding happens here). *)
Definition of_int (z : Z) : spec_float :=
  match z with
  | Z0 => S754_zero false
  | Zpos p => S754_finite false p 0
  | Zneg p => S754_finite true p 0
  end.

(** [a / b] on two [int]s: the exact quotient, rounded once.  The cells only
    form quotients of magnitude at most [NUM_DOCS], so the [OverflowError]
    of a quotient too large for a float does not arise. *)
Definition int_div (a b : Z) : result float :=
  if (b =? 0)%Z then Raise ZeroDivisionError
  else Ok (SF2Prim (SFdiv prec emax (of_int a) (of_int b))).

(** [x / y] on two [float]s *)
Definition float_div (x y : float) : result float :=
  if y =? 0 then Raise ZeroDivisionError else Ok (x / y).

(** [math.sqrt(x)] *)
Definition math_sqrt (x : float) : result float :=
  if x <? 0 then Raise ValueError else Ok (sqrt x).

(** The doubles [math.log] returns at 5/1, 5/2, 5/3, 5/4 and 5/5 (the
    correctly rounded natural logarithms); [nan] marks an argument outside
    the table, where the model says nothing. *)
Definition log_table (x : float) : float :=
  if x =? 5 then 0x1.9c041f7ed8d33p+0
  else if x =? 0x1.4p+1 then 0x1.d5240f0e0e078p-1
  else if x =? 0x1.aaaaaaaaaaaabp+0 then 0x1.058aefa811452p-1
  else if x =? 0x1.4p+0 then 0x1.c8ff7c79a9a22p-3
  else if x =? 1 then 0
  else nan.

(** The doubles [math.log10] returns at the same arguments: the correctly
    rounded base-10 logarithms, but at 5/3, where the C library returns the
    double just below the nearest one. *)
Definition log10_table (x : float) : float :=
  if x =? 5 then 0x1.65df657b04301p-1
  else if x =? 0x1.4p+1 then 0x1.977d95ec10c02p-2
  else if x =? 0x1.aaaaaaaaaaaabp+0 then 0x1.c658a32216008p-3
  else if x =? 0x1.4p+0 then 0x1.8cf183886480dp-4
  else if x =? 1 then 0
  else nan.

(** [math.log(x)] *)
Definition math_log (x : float) : result float :=
  if x <=? 0 then Raise ValueError else Ok (log_table x).

(** [math.log10(x)] *)
Definition math_log10 (x : float) : result float :=
  if x <=? 0 then Raise ValueError else Ok (log10_table x).

(** [idf], with the logarithm it calls as a parameter.  The [int] 0 of the
    [else] branch is only ever multiplied by a float, so it is [0.0]. *)
Definition idf_with (log : float -> result float) (index : InvIndex)
    (term : string) : result float :=
  if (0 <? List.length (postings index term))%nat then
    q <- int_div (Z.of_nat NUM_DOCS)
                 (Z.of_nat (List.length (postings index term))) ;;
    log q
  else Ok 0.

Definition idf : InvIndex -> string -> result float := idf_with math_log.

Definition idf_spec : InvIndex -> string -> result float :=
  idf_with math_log10.

Section Scorer.
Variable index : InvIndex.
Variable doc_len : Dict nat Z.
Variable idf_fn : string -> result float.

(** The body of the summation loop of the docnorm cell. *)
Definition docnorm_entry (term : string) (docnorm : Dict nat float)
    (p : nat * Z) : result (Dict nat float) :=
  let '(doc_id, freq) := p in
  len <- Dict.subscript doc_id doc_len ;;
  tf <- int_div freq len ;;
  i <- idf_fn term ;;
  let tfidf := tf * i in
  Ok (Dict.set doc_id (Dict.get_default doc_id 0 docnorm + tfidf * tfidf)
               docnorm).

Definition docnorm_term (docnorm : Dict nat float) (term : string)
  : result (Dict nat float) :=
  foldM (docnorm_entry term) (postings index term) docnorm.

(** The body of the square-root loop. *)
Definition docnorm_sqrt (docnorm : Dict nat float) (doc_id : nat)
  : result (Dict nat float) :=
  v <- Dict.subscript doc_id docnorm ;;
  s <- math_sqrt v ;;
  Ok (Dict.set doc_id s docnorm).

Definition compute_docnorm : result (Dict nat float) :=
  sums <- foldM docnorm_term (terms index) [] ;;
  foldM docnorm_sqrt (Dict.keys sums) sums.

Variable doc_norm : Dict nat float.

(** The body of the query-normalizer loop. *)
Definition qnorm_term (query : list string) (qnorm : float) (term : string)
  : result float :=
  tf <- int_div (Z.of_nat (count_occ string_dec query term))
                (Z.of_nat (List.length query)) ;;
  i <- idf_fn term ;;
  let tfidf := tf * i in
  Ok (qnorm + tfidf * tfidf).

(** The loop visits [set(query)] in the order [qset]. *)
Definition compute_qnorm (qset query : list string) : result float :=
  qnorm <- foldM (qnorm_term query) qset 0 ;;
  math_sqrt qnorm.

(** The body of the inner scoring loop. *)
Definition score_entry (query : list string) (qnorm : float) (term : string)
    (scores : Dict nat float) (p : nat * Z) : result (Dict nat float) :=
  let '(doc_id, freq) := p in
  len <- Dict.subscript doc_id doc_len ;;
  tf_td <- int_div freq len ;;
  i_td <- idf_fn term ;;
  let tfidf_td := tf_td * i_td in
  tf_tq <- int_div 1 (Z.of_nat (List.length query)) ;;
  i_tq <- idf_fn term ;;
  let tfidf_tq := tf_tq * i_tq in
  dn <- Dict.subscript doc_id doc_norm ;;
  score_term <- float_div (tfidf_tq * tfidf_td) (qnorm * dn) ;;
  Ok (Dict.set doc_id (Dict.get_default doc_id 0 scores + score_term) scores).

Definition score_term_loop (query : list string) (qnorm : float)
    (scores : Dict nat float) (term : string) : result (Dict nat float) :=
  foldM (score_entry query qnorm term) (postings index term) scores.

Definition score_tt_with (qset query : list string)
  : result (Dict nat float) :=
  qnorm <- compute_qnorm qset query ;;
  foldM (score_term_loop query qnorm) query [].
End Scorer.

(** The cells in order, for the index built from any matrix and with the
    logarithm [idf] calls as a parameter. *)
Definition run_cells_with (log : float -> result float)
    (m : Dict string (list Z)) (qset query : list string)
  : result (Dict nat float) :=
  dn <- compute_docnorm (mkInvIndex (fst (build_index m)))
                        (snd (build_index m))
                        (idf_with log (mkInvIndex (fst (build_index m)))) ;;
  score_tt_with (mkInvIndex (fst (build_index m))) (snd (build_index m))
                (idf_with log (mkInvIndex (fst (build_index m)))) dn
                qset query.

(** The notebook's cells. *)
Definition docnorm : result (Dict nat float) :=
  compute_docnorm idx doclen (idf idx).

Definition score_tt (qset query : list string) : result (Dict nat float) :=
  run_cells_with math_log td_matrix qset query.

(** The same cells with the specification's base-10 IDF. *)
Definition score_tt_spec (qset query : list string)
  : result (Dict nat float) :=
  run_cells_with math_log10 td_matrix qset query.

(** [sorted(scores.items(), key=lambda x: x[1], reverse=True)] *)
Fixpoint insert_desc (x : nat * float) (l : list (nat * float))
  : list (nat * float) :=
  match l with
  | [] => [x]
  | y :: r => if snd x <? snd y then y :: insert_desc x r else x :: y :: r
  end.

Definition sorted_desc (l : list (nat * float)) : list (nat * float) :=
  fold_right insert_desc [] l.

(** The quotient [n / d] of two positive integers rounded to the nearest
    integer, ties to the even one. *)
Definition div_half_even (n d : Z) : Z :=
  let q := (n / d)%Z in
  let r := (n mod d)%Z in
  if (2 * r <? d)%Z then q
  else if (d <? 2 * r)%Z then (q + 1)%Z
  else if Z.even q then q else (q + 1)%Z.

(** What [print] shows for [round(x, 3)]: [round] picks the multiple of
    0.001 nearest to the exact value of [x] (ties to even), and [print]
    writes the shortest decimal that reads back as that float. *)
Definition repr_round3 (x : float) : string :=
  match Prim2SF x with
  | S754_zero s => ((if s then "-" else "") ++ "0.0")%string
  | S754_infinity s => ((if s then "-" else "") ++ "inf")%string
  | S754_nan => "nan"%string
  | S754_finite s m e =>
      let k := if (0 <=? e)%Z then (Zpos m * 1000 * 2 ^ e)%Z
               else div_half_even (Zpos m * 1000) (2 ^ (- e)) in
      ((if s then "-" else "") ++ repr_milli k)%string
  end.

(** [print("D" + str(doc_id + 1) + ":", round(score, 3))] *)
Definition display_line (item : nat * float) : string :=
  ("D" ++ str_nat (fst item + 1) ++ ":" ++ " " ++ repr_round3 (snd item))%string.

Definition display (scores : Dict nat float) : list string :=
  map display_line (sorted_desc (Dict.items scores)).
End F64.

(** ** Definitions used to state the properties over binary64 *)

(** The documents of the posting lists [score_tt] visits, in visiting order. *)
Definition visited (index : InvIndex) (query : list string) : list nat :=
  map fst (flat_map (postings index) query).

(** The keys a dictionary gets when it is filled by assignments to the keys
    of [l], in order: every key once, at its first occurrence. *)
Definition add_key (ks : list nat) (k : nat) : list nat :=
  if in_dec Nat.eq_dec k ks then ks else ks ++ [k].

Definition first_seen (l : list nat) : list nat := fold_left add_key l [].

(** [qs] is an order in which [set(query)] can be visited. *)
Definition set_order (query qs : list string) : Prop :=
  Permutation (nodup string_dec query) qs.

(** A matrix with a very long first document. *)
Definition long_doc_matrix : Dict string (list Z) :=
  [ ("A", [1; 1; 0; 0; 0]%Z);
    ("B", [10 ^ 200; 1; 1; 1; 1]%Z) ].

(** * Properties *)

(** ** Dictionaries *)

Module DictFacts.
Section Facts.
Context {K V : Type} `{EqDec K}.
Implicit Types (k : K) (v : V) (d : Dict K V).

Lemma get_set_eq k v d : Dict.get k (Dict.set k v d) = Some v.
Proof.
  induction d as [|[k' v'] r IH]; simpl.
  - destruct (eq_dec k k); congruence.
  - destruct (eq_dec k k') as [E|E]; simpl.
    + destruct (eq_dec k k); congruence.
    + destruct (eq_dec k k'); congruence.
Qed.

Lemma get_set_neq k k' v d :
  k <> k' -> Dict.get k (Dict.set k' v d) = Dict.get k d.
Proof.
  intros N. induction d as [|[k0 v0] r IH]; simpl.
  - destruct (eq_dec k k'); congruence.
  - destruct (eq_dec k' k0) as [E|E]; simpl.
    + subst k0. destruct (eq_dec k k'); congruence.
    + destruct (eq_dec k k0); congruence.
Qed.

Lemma get_None_iff k d : Dict.get k d = None <-> ~ In k (Dict.keys d).
Proof.
  induction d as [|[k' v'] r IH]; simpl.
  - tauto.
  - destruct (eq_dec k k') as [E|E].
    + split; [discriminate | intros N; exfalso; apply N; left; congruence].
    + rewrite IH. split; intros N.
      * intros [C|C]; [congruence | tauto].
      * tauto.
Qed.

Lemma get_Some_In_keys k v d : Dict.get k d = Some v -> In k (Dict.keys d).
Proof.
  intros G. destruct (in_dec eq_dec k (Dict.keys d)) as [I|I]; [exact I|].
  apply get_None_iff in I. congruence.
Qed.

Lemma In_keys_get k d : In k (Dict.keys d) -> exists v, Dict.get k d = Some v.
Proof.
  intros I. destruct (Dict.get k d) as [v|] eqn:G; [eauto|].
  apply get_None_iff in G. tauto.
Qed.

Lemma get_In k v d : Dict.get k d = Some v -> In (k, v) d.
Proof.
  induction d as [|[k' v'] r IH]; simpl; [discriminate|].
  destruct (eq_dec k k') as [E|E]; intros G.
  - left. congruence.
  - right. auto.
Qed.

Lemma In_get k v d : NoDup (Dict.keys d) -> In (k, v) d -> Dict.get k d = Some v.
Proof.
  induction d as [|[k' v'] r IH]; simpl; [tauto|].
  intros ND [E|I].
  - inversion E; subst. destruct (eq_dec k k); congruence.
  - inversion ND as [|? ? NI ND']; subst.
    destruct (eq_dec k k') as [E|E].
    + subst k'. exfalso. apply NI. change (In (fst (k, v)) (map fst r)).
      now apply in_map.
    + auto.
Qed.

Lemma keys_set_in k v d : In k (Dict.keys d) -> Dict.keys (Dict.set k v d) = Dict.keys d.
Proof.
  induction d as [|[k' v'] r IH]; simpl; [tauto|].
  intros I. destruct (eq_dec k k') as [E|E]; simpl.
  - congruence.
  - f_equal. apply IH. destruct I; congruence.
Qed.

Lemma set_notin k v d : ~ In k (Dict.keys d) -> Dict.set k v d = d ++ [(k, v)].
Proof.
  induction d as [|[k' v'] r IH]; simpl; [reflexivity|].
  intros N. destruct (eq_dec k k') as [E|E].
  - exfalso. apply N. left. congruence.
  - f_equal. apply IH. tauto.
Qed.

Lemma keys_set k v d :
  Dict.keys (Dict.set k v d)
  = if in_dec eq_dec k (Dict.keys d) then Dict.keys d else Dict.keys d ++ [k].
Proof.
  destruct (in_dec eq_dec k (Dict.keys d)) as [I|I].
  - now apply keys_set_in.
  - rewrite set_notin by assumption. unfold Dict.keys. now rewrite map_app.
Qed.

Lemma In_keys_set k k' v d :
  In k (Dict.keys (Dict.set k' v d)) <-> k = k' \/ In k (Dict.keys d).
Proof.
  rewrite keys_set. destruct (in_dec eq_dec k' (Dict.keys d)) as [I|I].
  - split; [tauto | intros [E|I']; congruence].
  - rewrite in_app_iff. simpl. split; intros; intuition congruence.
Qed.

Lemma NoDup_keys_set k v d :
  NoDup (Dict.keys d) -> NoDup (Dict.keys (Dict.set k v d)).
Proof.
  intros ND. rewrite keys_set.
  destruct (in_dec eq_dec k (Dict.keys d)) as [I|I]; [exact ND|].
  apply NoDup_app; [exact ND | repeat constructor; simpl; tauto |].
  intros x Ix [E|[]]. congruence.
Qed.

Lemma set_set k v v' d : Dict.set k v' (Dict.set k v d) = Dict.set k v' d.
Proof.
  induction d as [|[k0 v0] r IH]; simpl.
  - destruct (eq_dec k k); congruence.
  - destruct (eq_dec k k0) as [E|E]; simpl.
    + destruct (eq_dec k k); congruence.
    + destruct (eq_dec k k0); congruence.
Qed.

Lemma get_default_set_eq k v dflt d :
  Dict.get_default k dflt (Dict.set k v d) = v.
Proof. unfold Dict.get_default. now rewrite get_set_eq. Qed.

Lemma get_default_set_neq k k' v dflt d :
  k <> k' -> Dict.get_default k dflt (Dict.set k' v d) = Dict.get_default k dflt d.
Proof. intros N. unfold Dict.get_default. now rewrite get_set_neq. Qed.
End Facts.
End DictFacts.

(** ** Loops in the result monad *)

Lemma bind_Ok {A B : Type} (a : A) (k : A -> result B) : (x <- Ok a ;; k x) = k a.
Proof. reflexivity. Qed.

Lemma foldM_app {A B : Type} (f : A -> B -> result A) (l1 l2 : list B) (a : A) :
  foldM f (l1 ++ l2) a = (a' <- foldM f l1 a ;; foldM f l2 a').
Proof.
  revert a. induction l1 as [|x r IH]; intros a; simpl; [reflexivity|].
  destruct (f a x); simpl; auto.
Qed.

(** A loop whose body never raises on the items it visits is a plain fold. *)
Lemma foldM_pure {A B : Type} (f : A -> B -> result A) (g : A -> B -> A)
    (l : list B) (a : A) :
  (forall a' x, In x l -> f a' x = Ok (g a' x)) ->
  foldM f l a = Ok (fold_left g l a).
Proof.
  revert a. induction l as [|x r IH]; intros a Hf; simpl; [reflexivity|].
  rewrite Hf by (left; reflexivity). simpl. apply IH.
  intros; apply Hf; right; assumption.
Qed.

(** Two loops whose bodies agree on the items visited agree. *)
Lemma foldM_ext {A B : Type} (f g : A -> B -> result A) (l : list B) (a : A) :
  (forall a' x, In x l -> f a' x = g a' x) -> foldM f l a = foldM g l a.
Proof.
  revert a. induction l as [|x r IH]; intros a Hf; simpl; [reflexivity|].
  rewrite Hf by (left; reflexivity). destruct (g a x); simpl; [|reflexivity].
  apply IH. intros; apply Hf; right; assumption.
Qed.

(** Simulation: if the bodies commute with [h], so do the loops. *)
Lemma foldM_sim {A A' B : Type} (h : A -> A')
    (f : A -> B -> result A) (f' : A' -> B -> result A') (l : list B) (a : A) :
  (forall a0 x, In x l -> f' (h a0) x = fmap h (f a0 x)) ->
  foldM f' l (h a) = fmap h (foldM f l a).
Proof.
  revert a. induction l as [|x r IH]; intros a Hf; simpl; [reflexivity|].
  rewrite Hf by (left; reflexivity). destruct (f a x); simpl; [|reflexivity].
  apply IH. intros; apply Hf; right; assumption.
Qed.

(** An invariant of the body is an invariant of the loop. *)
Lemma foldM_inv {A B : Type} (P : A -> Prop) (f : A -> B -> result A)
    (l : list B) (a a' : A) :
  (forall a0 x a1, In x l -> P a0 -> f a0 x = Ok a1 -> P a1) ->
  P a -> foldM f l a = Ok a' -> P a'.
Proof.
  revert a. induction l as [|x r IH]; intros a Hf Pa; simpl.
  - intros E; inversion E; subst; exact Pa.
  - destruct (f a x) as [a1|e] eqn:E; simpl; [|discriminate].
    apply IH.
    + intros; eapply Hf; eauto. right; assumption.
    + eapply Hf; eauto. left; reflexivity.
Qed.

(** ** Accumulation into a dictionary *)

Lemma if_in_dec_ext {A B : Type} (dec : forall x y : A, {x = y} + {x <> y})
    (a : A) (l1 l2 : list A) (x y : B) :
  (In a l1 <-> In a l2) ->
  (if in_dec dec a l1 then x else y) = (if in_dec dec a l2 then x else y).
Proof.
  intros E. destruct (in_dec dec a l1), (in_dec dec a l2); tauto.
Qed.

Section AccumFacts.
Context {K V : Type} `{EqDec K}.
Variable add : V -> V -> V.
Variable zero : V.

Lemma accum_app (l1 l2 : list (K * V)) (d : Dict K V) :
  accum add zero (l1 ++ l2) d = accum add zero l2 (accum add zero l1 d).
Proof. apply fold_left_app. Qed.

Lemma accum_keys_NoDup (l : list (K * V)) (d : Dict K V) :
  NoDup (Dict.keys d) -> NoDup (Dict.keys (accum add zero l d)).
Proof.
  revert d. induction l as [|kv r IH]; intros d ND; simpl; [exact ND|].
  apply IH. now apply DictFacts.NoDup_keys_set.
Qed.

Lemma accum_In_keys (k : K) (l : list (K * V)) (d : Dict K V) :
  In k (Dict.keys (accum add zero l d)) <-> In k (Dict.keys d) \/ In k (map fst l).
Proof.
  revert d. induction l as [|kv r IH]; intros d; simpl; [tauto|].
  rewrite IH. unfold accum_step. rewrite DictFacts.In_keys_set.
  intuition congruence.
Qed.

(** The value under [k] after the accumulation. *)
Lemma accum_get (k : K) (l : list (K * V)) (d : Dict K V) :
  Dict.get k (accum add zero l d)
  = if in_dec eq_dec k (Dict.keys d ++ map fst l)
    then Some (sum_for add k l (Dict.get_default k zero d))
    else None.
Proof.
  revert d. induction l as [|[k0 v0] r IH]; intros d.
  - simpl. rewrite app_nil_r.
    destruct (in_dec eq_dec k (Dict.keys d)) as [I|I].
    + apply DictFacts.In_keys_get in I. destruct I as [v G].
      unfold Dict.get_default. now rewrite G.
    + now apply DictFacts.get_None_iff.
  - change (accum add zero ((k0, v0) :: r) d)
      with (accum add zero r (accum_step add zero d (k0, v0))).
    rewrite IH. unfold accum_step; simpl fst; simpl snd.
    rewrite (if_in_dec_ext eq_dec k
               (Dict.keys (Dict.set k0 (add (Dict.get_default k0 zero d) v0) d) ++ map fst r)
               (Dict.keys d ++ map fst ((k0, v0) :: r))).
    2:{ rewrite !in_app_iff, DictFacts.In_keys_set. simpl. intuition congruence. }
    destruct (in_dec eq_dec k (Dict.keys d ++ map fst ((k0, v0) :: r))); [|reflexivity].
    f_equal. simpl. destruct (eq_dec k k0) as [E|E].
    + subst k0. now rewrite DictFacts.get_default_set_eq.
    + now rewrite DictFacts.get_default_set_neq.
Qed.
End AccumFacts.

(** The keys after a run of the idiom: every key once, at its first
    occurrence. *)
Lemma keys_accum {K V : Type} `{EqDec K} (add : V -> V -> V) (zero : V)
    (l : list (K * V)) (d : Dict K V) :
  Dict.keys (accum add zero l d)
  = fold_left (fun ks k => if in_dec eq_dec k ks then ks else ks ++ [k])
              (map fst l) (Dict.keys d).
Proof.
  revert d. induction l as [|kv r IH]; intros d; [reflexivity|].
  cbn [accum fold_left map]. fold (accum add zero r (accum_step add zero d kv)).
  rewrite IH. unfold accum_step. now rewrite DictFacts.keys_set.
Qed.

Lemma Rsum_nonneg (l : list R) : Forall (fun x => 0 <= x) l -> 0 <= Rsum l.
Proof. induction 1; simpl; lra. Qed.

Lemma Rsum_pos (l : list R) (x : R) :
  Forall (fun y => 0 <= y) l -> In x l -> 0 < x -> 0 < Rsum l.
Proof.
  induction 1 as [|y r Hy Hr IH]; simpl; [tauto|].
  intros [E|I] Hx.
  - subst. pose proof (Rsum_nonneg _ Hr). lra.
  - specialize (IH I Hx). lra.
Qed.

Lemma sum_for_Rsum {K : Type} `{EqDec K} (k : K) (l : list (K * R)) (init : R) :
  sum_for Rplus k l init = init + Rsum (values_at k l).
Proof.
  revert init. unfold sum_for, values_at.
  induction l as [|[k0 v0] r IH]; intros init; simpl; [lra|].
  rewrite IH. destruct (eq_dec k k0); simpl; lra.
Qed.

Lemma sum_for_Zsum {K : Type} `{EqDec K} (k : K) (l : list (K * Z)) (init : Z) :
  sum_for Z.add k l init = (init + Zsum (values_at k l))%Z.
Proof.
  revert init. unfold sum_for, values_at.
  induction l as [|[k0 v0] r IH]; intros init; simpl; [lia|].
  rewrite IH. destruct (eq_dec k k0); simpl; lia.
Qed.

Lemma values_at_app {K V : Type} `{EqDec K} (k : K) (l1 l2 : list (K * V)) :
  values_at k (l1 ++ l2) = values_at k l1 ++ values_at k l2.
Proof. unfold values_at. now rewrite filter_app, map_app. Qed.

Lemma In_values_at {K V : Type} `{EqDec K} (k : K) (v : V) (l : list (K * V)) :
  In v (values_at k l) <-> In (k, v) l.
Proof.
  unfold values_at. rewrite in_map_iff. split.
  - intros [[k0 v0] [E I]]. apply filter_In in I. destruct I as [I F].
    simpl in *. destruct (eq_dec k k0); [|discriminate]. congruence.
  - intros I. exists (k, v). split; [reflexivity|].
    apply filter_In. split; [exact I|]. simpl.
    destruct (eq_dec k k); congruence.
Qed.

(** The value under [k] of a dictionary accumulated from the empty one. *)
Lemma accum_get_R (k : nat) (l : list (nat * R)) :
  Dict.get k (accum Rplus 0 l [])
  = if in_dec Nat.eq_dec k (map fst l) then Some (Rsum (values_at k l)) else None.
Proof.
  rewrite accum_get. simpl.
  unfold eq_dec, nat_EqDec.
  destruct (in_dec Nat.eq_dec k (map fst l)); [|reflexivity].
  f_equal. rewrite sum_for_Rsum. unfold Dict.get_default. simpl. lra.
Qed.

Lemma accum_get_Z (k : nat) (l : list (nat * Z)) :
  Dict.get k (accum Z.add 0%Z l [])
  = if in_dec Nat.eq_dec k (map fst l) then Some (Zsum (values_at k l)) else None.
Proof.
  rewrite accum_get. simpl.
  unfold eq_dec, nat_EqDec.
  destruct (in_dec Nat.eq_dec k (map fst l)); [|reflexivity].
  f_equal. rewrite sum_for_Zsum. unfold Dict.get_default. simpl. lia.
Qed.

(** ** The index builder *)

Lemma set_get_same {K V : Type} `{EqDec K} (k : K) (v : V) (d : Dict K V) :
  Dict.get k d = Some v -> Dict.set k v d = d.
Proof.
  induction d as [|[k0 v0] r IH]; simpl; [discriminate|].
  destruct (eq_dec k k0) as [E|E]; intros G.
  - congruence.
  - f_equal. auto.
Qed.

Lemma Zsum_app (l1 l2 : list Z) : Zsum (l1 ++ l2) = (Zsum l1 + Zsum l2)%Z.
Proof. induction l1; simpl; lia. Qed.

(** The inner loop appends the positive entries to the term's postings and
    accumulates their frequencies into the lengths. *)
Lemma index_entry_loop (term : string) (l : list (nat * Z))
    (inv : Dict string postings_t) (dl : Dict nat Z) (pl : postings_t) :
  Dict.get term inv = Some pl ->
  fold_left (index_entry term) l (inv, dl)
  = (Dict.set term (pl ++ filter (fun p => (0 <? snd p)%Z) l) inv,
     accum Z.add 0%Z (filter (fun p => (0 <? snd p)%Z) l) dl).
Proof.
  revert inv dl pl. induction l as [|[d f] r IH]; intros inv dl pl G; simpl.
  - rewrite app_nil_r. now rewrite set_get_same.
  - destruct (0 <? f)%Z eqn:Pf; simpl.
    + replace (Dict.get_default term [] inv) with pl
        by (unfold Dict.get_default; now rewrite G).
      rewrite (IH _ _ (pl ++ [(d, f)])) by apply DictFacts.get_set_eq.
      rewrite DictFacts.set_set, <- app_assoc. reflexivity.
    + now apply IH.
Qed.

Lemma index_term_eq (inv : Dict string postings_t) (dl : Dict nat Z)
    (tv : string * list Z) :
  index_term (inv, dl) tv
  = (Dict.set (fst tv) (pos_entries (snd tv)) inv,
     accum Z.add 0%Z (pos_entries (snd tv)) dl).
Proof.
  destruct tv as [term vec]. unfold index_term. simpl fst; simpl snd.
  rewrite (index_entry_loop _ _ _ _ []) by apply DictFacts.get_set_eq.
  now rewrite DictFacts.set_set.
Qed.

Lemma build_loop (m : Dict string (list Z)) (inv : Dict string postings_t)
    (dl : Dict nat Z) :
  fold_left index_term m (inv, dl)
  = (fold_left (fun i tv => Dict.set (fst tv) (pos_entries (snd tv)) i) m inv,
     accum Z.add 0%Z (all_entries m) dl).
Proof.
  revert inv dl. induction m as [|tv r IH]; intros inv dl; simpl; [reflexivity|].
  rewrite index_term_eq, IH. unfold all_entries; simpl.
  now rewrite accum_app.
Qed.

Lemma build_index_eq (m : Dict string (list Z)) :
  build_index m
  = (fold_left (fun i tv => Dict.set (fst tv) (pos_entries (snd tv)) i) m [],
     accum Z.add 0%Z (all_entries m) []).
Proof. apply build_loop. Qed.

(** Every stored posting list is the list of positive entries of a row. *)
Lemma built_postings_row (m : Dict string (list Z)) (inv : Dict string postings_t)
    (t : string) (pl : postings_t) :
  Dict.get t (fold_left (fun i tv => Dict.set (fst tv) (pos_entries (snd tv)) i) m inv)
  = Some pl ->
  (exists vec, In (t, vec) m /\ pl = pos_entries vec) \/ Dict.get t inv = Some pl.
Proof.
  revert inv. induction m as [|[t0 vec0] r IH]; intros inv G; simpl in *; [tauto|].
  apply IH in G. destruct G as [[vec [I E]]|G]; [left; eauto|].
  destruct (string_dec t t0) as [E|E].
  - subst t0. rewrite DictFacts.get_set_eq in G. left. exists vec0.
    split; [now left | congruence].
  - rewrite DictFacts.get_set_neq in G by assumption. tauto.
Qed.

Lemma built_postings_in_all (m : Dict string (list Z)) (t : string) (p : nat * Z) :
  In p (postings (mkInvIndex (fst (build_index m))) t) -> In p (all_entries m).
Proof.
  rewrite build_index_eq. unfold postings, Dict.get_default. simpl.
  destruct (Dict.get t _) as [pl|] eqn:G; [|intros []].
  apply built_postings_row in G. destruct G as [[vec [I E]]|G]; [|discriminate].
  intros Ip. subst pl. unfold all_entries. apply in_flat_map.
  exists (t, vec). auto.
Qed.

(** With unique keys the inverted index lists the rows in matrix order. *)
Lemma built_inv_map (m : Dict string (list Z)) (inv : Dict string postings_t) :
  NoDup (Dict.keys inv ++ Dict.keys m) ->
  fold_left (fun i tv => Dict.set (fst tv) (pos_entries (snd tv)) i) m inv
  = inv ++ map (fun tv => (fst tv, pos_entries (snd tv))) m.
Proof.
  revert inv. induction m as [|[t0 vec0] r IH]; intros inv ND; simpl.
  - now rewrite app_nil_r.
  - assert (NI : ~ In t0 (Dict.keys inv)).
    { intros I. apply NoDup_remove_2 in ND. apply ND. apply in_or_app. now left. }
    rewrite DictFacts.set_notin by assumption.
    rewrite IH.
    + now rewrite <- app_assoc.
    + unfold Dict.keys in *. rewrite map_app. simpl. rewrite <- app_assoc. exact ND.
Qed.

Lemma total_recorded_rows (d : nat) (m : Dict string (list Z)) :
  total_recorded d (map (fun tv => (fst tv, pos_entries (snd tv))) m)
  = Zsum (values_at d (all_entries m)).
Proof.
  unfold total_recorded, Dict.items, all_entries.
  induction m as [|tv r IH]; simpl; [reflexivity|].
  rewrite values_at_app, Zsum_app, IH. reflexivity.
Qed.

(** The positive entries of a row hold at most one entry for a document:
    the row's frequency there, when it is positive. *)
Lemma values_at_enumerate (d s : nat) (vec : list Z) :
  values_at d (filter (fun p => (0 <? snd p)%Z) (combine (seq s (List.length vec)) vec))
  = if (s <=? d)%nat
    then (if (0 <? nth (d - s) vec 0%Z)%Z then [nth (d - s) vec 0%Z] else [])
    else [].
Proof.
  revert s. induction vec as [|f r IH]; intros s.
  - simpl. destruct (s <=? d)%nat; [|reflexivity]. now destruct (d - s)%nat.
  - cbn [List.length seq combine].
    assert (Hc : values_at d (filter (fun p => (0 <? snd p)%Z)
                               ((s, f) :: combine (seq (S s) (List.length r)) r))
                 = (if Nat.eq_dec d s then (if (0 <? f)%Z then [f] else []) else [])
                     ++ values_at d (filter (fun p => (0 <? snd p)%Z)
                                       (combine (seq (S s) (List.length r)) r))).
    { simpl. destruct (0 <? f)%Z; unfold values_at; simpl;
        unfold eq_dec, nat_EqDec; destruct (Nat.eq_dec d s); reflexivity. }
    rewrite Hc, IH. clear Hc IH.
    destruct (Nat.eq_dec d s) as [E|E].
    + subst s. rewrite Nat.sub_diag.
      replace (S d <=? d)%nat with false by (symmetry; apply Nat.leb_gt; lia).
      rewrite Nat.leb_refl, app_nil_r. reflexivity.
    + cbn [app]. destruct (s <=? d)%nat eqn:L1.
      * apply Nat.leb_le in L1.
        replace (S s <=? d)%nat with true by (symmetry; apply Nat.leb_le; lia).
        replace (d - s)%nat with (S (d - S s)) by lia. reflexivity.
      * apply Nat.leb_gt in L1.
        replace (S s <=? d)%nat with false by (symmetry; apply Nat.leb_gt; lia).
        reflexivity.
Qed.

Lemma recorded_row (d : nat) (vec : list Z) :
  Forall (fun f => (0 <= f)%Z) vec ->
  Zsum (values_at d (pos_entries vec)) = nth d vec 0%Z.
Proof.
  intros NN. unfold pos_entries, enumerate. rewrite values_at_enumerate.
  simpl. rewrite Nat.sub_0_r.
  assert (0 <= nth d vec 0)%Z.
  { destruct (nth_in_or_default d vec 0%Z) as [I|E]; [|lia].
    rewrite Forall_forall in NN. auto. }
  destruct (0 <? nth d vec 0)%Z eqn:P; simpl; [lia|].
  apply Z.ltb_ge in P. lia.
Qed.

(** Every posting has a positive frequency. *)
Lemma all_entries_pos (m : Dict string (list Z)) (p : nat * Z) :
  In p (all_entries m) -> (0 < snd p)%Z.
Proof.
  unfold all_entries, pos_entries. rewrite in_flat_map.
  intros [tv [_ I]]. apply filter_In in I. destruct I as [_ P].
  now apply Z.ltb_lt.
Qed.

Lemma Zsum_pos (l : list Z) (x : Z) :
  Forall (fun y => (0 < y)%Z) l -> In x l -> (0 < Zsum l)%Z.
Proof.
  intros F. revert x. induction F as [|y r Hy Hr IH]; simpl; [tauto|].
  intros x [E|I].
  - assert (0 <= Zsum r)%Z by (clear -Hr; induction Hr; simpl; lia). lia.
  - specialize (IH _ I). lia.
Qed.

(** The length table has a positive entry for every document of a posting. *)
Lemma built_doclen_pos (m : Dict string (list Z)) (d : nat) (f : Z) :
  In (d, f) (all_entries m) ->
  exists L, Dict.get d (snd (build_index m)) = Some L /\ (0 < L)%Z.
Proof.
  intros I. rewrite build_index_eq. simpl. rewrite accum_get_Z.
  destruct (in_dec Nat.eq_dec d (map fst (all_entries m))) as [Id|Nd].
  - eexists. split; [reflexivity|].
    apply Zsum_pos with (x := f).
    + apply Forall_forall. intros y Iy. apply In_values_at in Iy.
      now apply all_entries_pos in Iy.
    + now apply In_values_at.
  - exfalso. apply Nd. change d with (fst (d, f)). now apply in_map.
Qed.

(** C7: for every document [d] that appears in some posting list, the length
    table built by the index builder maps [d] to the sum of the frequencies
    recorded for [d] across all terms' posting lists; when the matrix holds
    no negative frequency that is the sum over all terms of the term's
    frequency in [d]. *)
Theorem doclen_is_sum_of_frequencies (m : Dict string (list Z)) (d : nat) :
  NoDup (Dict.keys m) ->
  (exists t f, In (d, f) (postings (mkInvIndex (fst (build_index m))) t)) ->
  Dict.get d (snd (build_index m)) = Some (total_recorded d (fst (build_index m)))
  /\ (Forall (fun tv => Forall (fun f => (0 <= f)%Z) (snd tv)) (Dict.items m) ->
      total_recorded d (fst (build_index m))
      = Zsum (map (fun tv => nth d (snd tv) 0%Z) (Dict.items m))).
Proof.
  intros ND [t [f I]].
  apply built_postings_in_all in I.
  rewrite build_index_eq. simpl fst; simpl snd.
  rewrite built_inv_map by exact ND. simpl app.
  rewrite total_recorded_rows. split.
  - rewrite accum_get_Z.
    destruct (in_dec Nat.eq_dec d (map fst (all_entries m))) as [Id|Nd];
      [reflexivity|].
    exfalso. apply Nd. change d with (fst (d, f)). now apply in_map.
  - intros NN. unfold all_entries, Dict.items in *. clear ND I.
    induction m as [|tv r IH]; simpl; [reflexivity|].
    inversion NN; subst.
    rewrite values_at_app, Zsum_app, IH, recorded_row by assumption.
    reflexivity.
Qed.

(** ** Arithmetic that may raise *)

Lemma py_div_ok (x y : R) : y <> 0 -> py_div x y = Ok (x / y).
Proof. intros N. unfold py_div. destruct (Req_dec_T y 0); [contradiction|reflexivity]. Qed.

Lemma py_div_zero (x : R) : py_div x 0 = Raise ZeroDivisionError.
Proof. unfold py_div. destruct (Req_dec_T 0 0); [reflexivity|contradiction]. Qed.

Lemma math_log_ok (x : R) : 0 < x -> math_log x = Ok (ln x).
Proof. intros P. unfold math_log. destruct (Rlt_dec 0 x); [reflexivity|contradiction]. Qed.

Lemma math_log10_ok (x : R) : 0 < x -> math_log10 x = Ok (ln x / ln 10).
Proof. intros P. unfold math_log10. destruct (Rlt_dec 0 x); [reflexivity|contradiction]. Qed.

Lemma math_sqrt_ok (x : R) : 0 <= x -> math_sqrt x = Ok (sqrt x).
Proof. intros P. unfold math_sqrt. destruct (Rlt_dec x 0); [lra|reflexivity]. Qed.

Lemma ln_10_gt_1 : 1 < ln 10.
Proof.
  rewrite <- (ln_exp 1). apply ln_increasing; [apply exp_pos|].
  pose proof exp_le_3. lra.
Qed.

(** ** The accessor and IDF *)

(** C4: for every string [term], [postings] returns the stored posting list
    when [term] is a key of the index and the empty list otherwise; being a
    total function, it never fails. *)
Theorem postings_stored_or_empty (index : InvIndex) (term : string) :
  (In term (terms index) ->
   exists pl, Dict.get term (self_idx index) = Some pl
              /\ In (term, pl) (Dict.items (self_idx index))
              /\ postings index term = pl)
  /\ (~ In term (terms index) -> postings index term = []).
Proof.
  unfold postings, terms, Dict.get_default. split.
  - intros I. apply DictFacts.In_keys_get in I. destruct I as [pl G].
    exists pl. rewrite G. repeat split. now apply DictFacts.get_In.
  - intros N. apply DictFacts.get_None_iff in N. now rewrite N.
Qed.

Lemma INR_length_pos {A : Type} (l : list A) :
  (0 <? List.length l)%nat = true -> 0 < INR (List.length l).
Proof. intros P. apply Nat.ltb_lt in P. now apply lt_0_INR. Qed.

Lemma INR_NUM_DOCS : INR NUM_DOCS = 5.
Proof. unfold NUM_DOCS. simpl. lra. Qed.

(** [idf] never raises, whatever the index and the term. *)
Lemma idf_total (index : InvIndex) (term : string) :
  idf index term = Ok (idf_val index term).
Proof.
  unfold idf, idf_with, idf_val.
  destruct (0 <? List.length (postings index term))%nat eqn:P; [|reflexivity].
  apply INR_length_pos in P.
  rewrite py_div_ok by lra. rewrite bind_Ok.
  apply math_log_ok. rewrite INR_NUM_DOCS. apply Rdiv_lt_0_compat; lra.
Qed.

Lemma idf_spec_total (index : InvIndex) (term : string) :
  idf_spec index term = Ok (idf_val index term / ln 10).
Proof.
  unfold idf_spec, idf_with, idf_val.
  destruct (0 <? List.length (postings index term))%nat eqn:P.
  - apply INR_length_pos in P.
    rewrite py_div_ok by lra. rewrite bind_Ok.
    apply math_log10_ok. rewrite INR_NUM_DOCS. apply Rdiv_lt_0_compat; lra.
  - f_equal. unfold Rdiv. now rewrite Rmult_0_l.
Qed.

(** C3: for every term whose posting list is empty, [idf] returns 0 and
    raises nothing. *)
Theorem idf_zero_when_no_postings (index : InvIndex) (term : string) :
  postings index term = [] -> idf index term = Ok 0.
Proof.
  intros E. unfold idf, idf_with. now rewrite E.
Qed.

Lemma idf_zero_when_no_postings_witness :
  postings idx "roast" = [] /\ postings idx "goose" = []
  /\ idf idx "roast" = Ok 0 /\ idf idx "goose" = Ok 0.
Proof.
  assert (H1 : postings idx "roast" = []) by reflexivity.
  assert (H2 : postings idx "goose" = []) by reflexivity.
  exact (conj H1 (conj H2 (conj (idf_zero_when_no_postings idx "roast" H1)
                                (idf_zero_when_no_postings idx "goose" H2)))).
Defined.

(** What [idf] computes for a term that has postings: the natural logarithm
    of [NUM_DOCS] over the document frequency. *)
Lemma idf_natural_log (index : InvIndex) (term : string) :
  postings index term <> [] ->
  idf index term
  = Ok (ln (INR NUM_DOCS / INR (List.length (postings index term)))).
Proof.
  intros N. rewrite idf_total. unfold idf_val.
  destruct (postings index term); [contradiction|reflexivity].
Qed.

(** C2: for "beijing" (document frequency 2) the notebook's [idf] returns the
    natural logarithm of 5/2, which is not the base-10 logarithm of 5/2 that
    the specification's formula gives. *)
Theorem idf_beijing_is_natural_log :
  idf idx "beijing" = Ok (ln (5 / 2))
  /\ idf_spec idx "beijing" = Ok (ln (5 / 2) / ln 10)
  /\ ln (5 / 2) <> ln (5 / 2) / ln 10.
Proof.
  assert (E : idf_val idx "beijing" = ln (5 / 2)).
  { unfold idf_val. change (postings idx "beijing") with [(1%nat, 1%Z); (4%nat, 1%Z)].
    simpl. f_equal. lra. }
  split; [|split].
  - now rewrite idf_total, E.
  - now rewrite idf_spec_total, E.
  - assert (P : 0 < ln (5 / 2)).
    { rewrite <- ln_1. apply ln_increasing; lra. }
    pose proof ln_10_gt_1 as T. intros C.
    assert (ln (5 / 2) * ln 10 = ln (5 / 2)).
    { rewrite C at 1. field. lra. }
    nra.
Qed.

(** ** More on dictionaries: prefixes, value maps, invariants *)

Lemma get_app_notin {K V : Type} `{EqDec K} (k : K) (d1 d2 : Dict K V) :
  ~ In k (Dict.keys d1) -> Dict.get k (d1 ++ d2) = Dict.get k d2.
Proof.
  induction d1 as [|[k0 v0] r IH]; simpl; [reflexivity|].
  intros N. destruct (eq_dec k k0); [exfalso; apply N; left; congruence|].
  apply IH. tauto.
Qed.

Lemma set_app_notin {K V : Type} `{EqDec K} (k : K) (v : V) (d1 d2 : Dict K V) :
  ~ In k (Dict.keys d1) -> Dict.set k v (d1 ++ d2) = d1 ++ Dict.set k v d2.
Proof.
  induction d1 as [|[k0 v0] r IH]; simpl; [reflexivity|].
  intros N. destruct (eq_dec k k0); [exfalso; apply N; left; congruence|].
  f_equal. apply IH. tauto.
Qed.

Lemma get_map_values {K V W : Type} `{EqDec K} (g : V -> W) (k : K) (d : Dict K V) :
  Dict.get k (map (fun kv => (fst kv, g (snd kv))) d) = option_map g (Dict.get k d).
Proof.
  induction d as [|[k0 v0] r IH]; simpl; [reflexivity|].
  destruct (eq_dec k k0); [reflexivity|exact IH].
Qed.

Lemma set_map_values {K V W : Type} `{EqDec K} (g : V -> W) (k : K) (v : V)
    (d : Dict K V) :
  Dict.set k (g v) (map (fun kv => (fst kv, g (snd kv))) d)
  = map (fun kv => (fst kv, g (snd kv))) (Dict.set k v d).
Proof.
  induction d as [|[k0 v0] r IH]; simpl; [reflexivity|].
  destruct (eq_dec k k0); simpl; [reflexivity|]. now rewrite IH.
Qed.

Lemma keys_map_values {K V W : Type} (g : V -> W) (d : Dict K V) :
  Dict.keys (map (fun kv => (fst kv, g (snd kv))) d) = Dict.keys d.
Proof. unfold Dict.keys. rewrite map_map. reflexivity. Qed.

Lemma Forall_set {K V : Type} `{EqDec K} (P : K * V -> Prop) (k : K) (v : V)
    (d : Dict K V) :
  Forall P d -> P (k, v) -> Forall P (Dict.set k v d).
Proof.
  induction 1 as [|[k0 v0] r Hx Hr IH]; intros Pk; simpl.
  - repeat constructor; assumption.
  - destruct (eq_dec k k0); constructor; auto.
Qed.

Lemma accum_nonneg (l : list (nat * R)) (d : Dict nat R) :
  Forall (fun kv => 0 <= snd kv) d -> Forall (fun kv => 0 <= snd kv) l ->
  Forall (fun kv => 0 <= snd kv) (accum Rplus 0 l d).
Proof.
  intros Hd Hl. revert d Hd. induction Hl as [|[k v] r Hv Hr IH]; intros d Hd; simpl.
  - exact Hd.
  - apply IH. unfold accum_step. apply Forall_set; [exact Hd|]. simpl in *.
    assert (0 <= Dict.get_default k 0 d).
    { unfold Dict.get_default. destruct (Dict.get k d) as [x|] eqn:G; [|lra].
      apply DictFacts.get_In in G. rewrite Forall_forall in Hd.
      exact (Hd _ G). }
    lra.
Qed.

Lemma fold_left_Rsum {A : Type} (g : A -> R) (l : list A) (init : R) :
  fold_left (fun s x => s + g x) l init = init + Rsum (map g l).
Proof.
  revert init. induction l as [|x r IH]; intros init; simpl; [lra|].
  rewrite IH. lra.
Qed.

(** ** The square-root loop of the docnorm cell *)

(** Whether or not it raises, the loop over [docnorm.keys()] replaces every
    value by its square root, from the first key to the last. *)
Lemma docnorm_sqrt_loop (pre d : Dict nat R) :
  NoDup (Dict.keys (pre ++ d)) ->
  foldM docnorm_sqrt (Dict.keys d) (pre ++ d)
  = (d' <- mapM sqrt_item d ;; Ok (pre ++ d')).
Proof.
  revert pre. induction d as [|[k v] r IH]; intros pre ND; simpl.
  - reflexivity.
  - assert (NI : ~ In k (Dict.keys pre)).
    { unfold Dict.keys in *. rewrite map_app in ND. simpl in ND.
      apply NoDup_remove_2 in ND. intros I. apply ND. apply in_or_app. now left. }
    unfold docnorm_sqrt at 1, Dict.subscript.
    rewrite get_app_notin by assumption. simpl.
    destruct (eq_dec k k) as [_|N]; [|congruence]. simpl.
    unfold sqrt_item at 1. simpl.
    destruct (math_sqrt v) as [s|e]; simpl; [|reflexivity].
    rewrite set_app_notin by assumption. simpl.
    destruct (eq_dec k k) as [_|N]; [|congruence].
    replace (pre ++ (k, s) :: r) with ((pre ++ [(k, s)]) ++ r)
      by (rewrite <- app_assoc; reflexivity).
    rewrite IH.
    + destruct (mapM sqrt_item r); simpl; [|reflexivity].
      now rewrite <- app_assoc.
    + unfold Dict.keys in *. rewrite !map_app in *. simpl in *.
      rewrite <- app_assoc. exact ND.
Qed.

Lemma mapM_sqrt_nonneg (d : Dict nat R) :
  Forall (fun kv => 0 <= snd kv) d ->
  mapM sqrt_item d = Ok (map (fun kv => (fst kv, sqrt (snd kv))) d).
Proof.
  induction 1 as [|[k v] r Hv Hr IH]; simpl; [reflexivity|].
  unfold sqrt_item at 1. simpl in *. rewrite math_sqrt_ok by assumption.
  simpl. now rewrite IH.
Qed.

Lemma fold_left_over_map {A B C : Type} (f : A -> B -> A) (g : C -> B)
    (l : list C) (a : A) :
  fold_left f (map g l) a = fold_left (fun a0 x => f a0 (g x)) l a.
Proof. revert a. induction l as [|x r IH]; intros a; simpl; auto. Qed.

(** ** The scorer when nothing raises *)

Section ScorerFacts.
Variable index : InvIndex.
Variable doc_len : Dict nat Z.
Variable idf_fn : string -> result R.
Variable w : string -> R.

Hypothesis idf_ok : forall t, idf_fn t = Ok (w t).
Hypothesis len_ok : forall t d f,
    In (d, f) (postings index t) ->
    exists L, Dict.get d doc_len = Some L /\ IZR L <> 0.

Lemma docnorm_entry_ok (t : string) (acc : Dict nat R) (p : nat * Z) :
  In p (postings index t) ->
  docnorm_entry doc_len idf_fn t acc p
  = Ok (accum_step Rplus 0 acc (fst p, tfidf_td doc_len w t p ^ 2)).
Proof.
  destruct p as [d f]. intros I.
  destruct (len_ok _ _ _ I) as [L [G NZ]].
  unfold docnorm_entry, Dict.subscript, accum_step, tfidf_td, Dict.get_default.
  simpl fst; simpl snd. rewrite G. rewrite bind_Ok.
  rewrite py_div_ok by assumption. rewrite bind_Ok, idf_ok, bind_Ok.
  reflexivity.
Qed.

Lemma docnorm_term_ok (acc : Dict nat R) (t : string) :
  docnorm_term index doc_len idf_fn acc t
  = Ok (accum Rplus 0
          (map (fun p => (fst p, tfidf_td doc_len w t p ^ 2)) (postings index t))
          acc).
Proof.
  unfold docnorm_term.
  rewrite foldM_pure
    with (g := fun a p => accum_step Rplus 0 a (fst p, tfidf_td doc_len w t p ^ 2)).
  - unfold accum. now rewrite fold_left_over_map.
  - intros; now apply docnorm_entry_ok.
Qed.

Lemma docnorm_sums_ok (ts : list string) (acc : Dict nat R) :
  foldM (docnorm_term index doc_len idf_fn) ts acc
  = Ok (accum Rplus 0
          (flat_map (fun t => map (fun p => (fst p, tfidf_td doc_len w t p ^ 2))
                                  (postings index t)) ts)
          acc).
Proof.
  revert acc. induction ts as [|t r IH]; intros acc; simpl; [reflexivity|].
  rewrite docnorm_term_ok, bind_Ok, IH. now rewrite accum_app.
Qed.

Lemma docnorm_pairs_nonneg :
  Forall (fun kv => 0 <= snd kv) (docnorm_pairs index doc_len w).
Proof.
  apply Forall_forall. intros [k v] I. unfold docnorm_pairs in I.
  apply in_flat_map in I. destruct I as [t [_ I]].
  apply in_map_iff in I. destruct I as [p [E _]]. inversion E; subst.
  simpl. apply pow2_ge_0.
Qed.

(** The docnorm cell runs to completion and yields [docnorm_val]. *)
Lemma compute_docnorm_ok :
  compute_docnorm index doc_len idf_fn = Ok (docnorm_val index doc_len w).
Proof.
  unfold compute_docnorm. rewrite docnorm_sums_ok, bind_Ok.
  fold (docnorm_pairs index doc_len w).
  set (sums := accum Rplus 0 (docnorm_pairs index doc_len w) []).
  assert (ND : NoDup (Dict.keys sums)).
  { apply accum_keys_NoDup. constructor. }
  assert (NN : Forall (fun kv => 0 <= snd kv) sums).
  { apply accum_nonneg; [constructor | apply docnorm_pairs_nonneg]. }
  pose proof (docnorm_sqrt_loop [] sums ND) as L. simpl in L.
  rewrite L, mapM_sqrt_nonneg by assumption. reflexivity.
Qed.

Lemma docnorm_val_get (d : nat) :
  Dict.get d (docnorm_val index doc_len w)
  = if in_dec Nat.eq_dec d (map fst (docnorm_pairs index doc_len w))
    then Some (sqrt (Rsum (values_at d (docnorm_pairs index doc_len w))))
    else None.
Proof.
  unfold docnorm_val. rewrite get_map_values, accum_get_R.
  destruct (in_dec Nat.eq_dec d (map fst (docnorm_pairs index doc_len w)));
    reflexivity.
Qed.

(** A document of a posting whose term has a non-zero IDF has a positive
    norm. *)
Lemma docnorm_val_pos (t : string) (d : nat) (f : Z) :
  In t (terms index) -> In (d, f) (postings index t) ->
  IZR f <> 0 -> w t <> 0 ->
  exists n, Dict.get d (docnorm_val index doc_len w) = Some n /\ 0 < n.
Proof.
  intros It Ip Hf Hw.
  destruct (len_ok _ _ _ Ip) as [L [G NZ]].
  assert (Iq : In (d, tfidf_td doc_len w t (d, f) ^ 2)
                  (docnorm_pairs index doc_len w)).
  { unfold docnorm_pairs. apply in_flat_map. exists t. split; [exact It|].
    apply in_map_iff. exists (d, f). split; [reflexivity|exact Ip]. }
  rewrite docnorm_val_get.
  destruct (in_dec Nat.eq_dec d (map fst (docnorm_pairs index doc_len w))) as [_|N].
  2:{ exfalso. apply N. apply in_map_iff. eexists. split; [|exact Iq]. reflexivity. }
  eexists. split; [reflexivity|]. apply sqrt_lt_R0.
  apply Rsum_pos with (x := tfidf_td doc_len w t (d, f) ^ 2).
  - apply Forall_forall. intros y Iy. apply In_values_at in Iy.
    pose proof docnorm_pairs_nonneg as NN. rewrite Forall_forall in NN.
    exact (NN _ Iy).
  - now apply In_values_at.
  - assert (X : tfidf_td doc_len w t (d, f) <> 0).
    { unfold tfidf_td, Dict.get_default. simpl. rewrite G.
      apply Rmult_integral_contrapositive_currified; [|exact Hw].
      unfold Rdiv. apply Rmult_integral_contrapositive_currified;
        [exact Hf | now apply Rinv_neq_0_compat]. }
    assert (0 <= tfidf_td doc_len w t (d, f) ^ 2) by apply pow2_ge_0.
    assert (tfidf_td doc_len w t (d, f) ^ 2 <> 0) by (apply pow_nonzero; exact X).
    lra.
Qed.

(** *** The query normalizer *)

Lemma qnorm_loop_ok (query : list string) :
  foldM (qnorm_term idf_fn query) (nodup string_dec query) 0
  = Ok (qnorm_sq w query).
Proof.
  unfold qnorm_sq. apply foldM_pure. intros s t I.
  apply nodup_In in I.
  assert (NZ : INR (List.length query) <> 0).
  { destruct query; [destruct I|]. apply not_0_INR. simpl. discriminate. }
  unfold qnorm_term. rewrite py_div_ok by assumption.
  rewrite bind_Ok, idf_ok. reflexivity.
Qed.

Lemma qnorm_sq_eq (query : list string) :
  qnorm_sq w query
  = Rsum (map (fun t => (INR (count_occ string_dec query t)
                         / INR (List.length query) * w t) ^ 2)
              (nodup string_dec query)).
Proof. unfold qnorm_sq. rewrite fold_left_Rsum. lra. Qed.

Lemma qnorm_sq_nonneg (query : list string) : 0 <= qnorm_sq w query.
Proof.
  rewrite qnorm_sq_eq. apply Rsum_nonneg. apply Forall_forall.
  intros x I. apply in_map_iff in I. destruct I as [t [E _]]. subst.
  apply pow2_ge_0.
Qed.

Lemma compute_qnorm_ok (query : list string) :
  compute_qnorm idf_fn query = Ok (qnorm_val w query).
Proof.
  unfold compute_qnorm. rewrite qnorm_loop_ok, bind_Ok.
  apply math_sqrt_ok, qnorm_sq_nonneg.
Qed.

(** A query with a term of non-zero IDF has a positive normalizer. *)
Lemma qnorm_val_pos (query : list string) (t : string) :
  In t query -> w t <> 0 -> 0 < qnorm_val w query.
Proof.
  intros I Hw. unfold qnorm_val. apply sqrt_lt_R0. rewrite qnorm_sq_eq.
  set (g := fun t0 => (INR (count_occ string_dec query t0)
                       / INR (List.length query) * w t0) ^ 2).
  apply Rsum_pos with (x := g t).
  - apply Forall_forall. intros x Ix. apply in_map_iff in Ix.
    destruct Ix as [t0 [E _]]. subst. apply pow2_ge_0.
  - apply in_map. now apply nodup_In.
  - assert (C : (0 < count_occ string_dec query t)%nat)
      by now apply count_occ_In.
    assert (Lq : (0 < List.length query)%nat)
      by (destruct query; [destruct I | simpl; lia]).
    apply lt_0_INR in C. apply lt_0_INR in Lq.
    assert (X : INR (count_occ string_dec query t) / INR (List.length query) * w t <> 0).
    { apply Rmult_integral_contrapositive_currified; [|exact Hw].
      apply Rgt_not_eq. apply Rdiv_lt_0_compat; assumption. }
    assert (0 <= g t) by apply pow2_ge_0.
    assert (g t <> 0) by (apply pow_nonzero; exact X).
    lra.
Qed.

(** *** The scoring loop *)

Variable doc_norm : Dict nat R.

Lemma score_entry_ok (query : list string) (qnorm : R) (t : string)
    (acc : Dict nat R) (p : nat * Z) :
  In t query -> In p (postings index t) ->
  (exists n, Dict.get (fst p) doc_norm = Some n /\ qnorm * n <> 0) ->
  score_entry doc_len idf_fn doc_norm query qnorm t acc p
  = Ok (accum_step Rplus 0 acc
          (score_pair doc_len w doc_norm (List.length query) qnorm t p)).
Proof.
  destruct p as [d f]. intros It Ip [n [Gn NZn]].
  destruct (len_ok _ _ _ Ip) as [L [G NZ]].
  assert (NZq : INR (List.length query) <> 0).
  { destruct query; [destruct It|]. apply not_0_INR. simpl. discriminate. }
  simpl fst in Gn.
  unfold score_entry, Dict.subscript, accum_step, score_pair, tfidf_td,
    Dict.get_default.
  simpl fst; simpl snd. rewrite G, Gn. rewrite bind_Ok.
  rewrite py_div_ok by assumption. rewrite bind_Ok, idf_ok, bind_Ok.
  rewrite py_div_ok by assumption. rewrite !bind_Ok.
  rewrite py_div_ok by assumption. rewrite bind_Ok.
  reflexivity.
Qed.

Lemma score_loop_ok (query : list string) (qnorm : R) (ts : list string)
    (acc : Dict nat R) :
  (forall t p, In t ts -> In p (postings index t) ->
               In t query
               /\ exists n, Dict.get (fst p) doc_norm = Some n /\ qnorm * n <> 0) ->
  foldM (score_term_loop index doc_len idf_fn doc_norm query qnorm) ts acc
  = Ok (accum Rplus 0
          (score_pairs index doc_len w doc_norm (List.length query) qnorm ts)
          acc).
Proof.
  revert acc. induction ts as [|t r IH]; intros acc Hok; simpl; [reflexivity|].
  unfold score_term_loop at 1.
  rewrite foldM_pure
    with (g := fun a p => accum_step Rplus 0 a
                 (score_pair doc_len w doc_norm (List.length query) qnorm t p)).
  - rewrite bind_Ok, IH by (intros; apply Hok; [right|]; assumption).
    rewrite accum_app. unfold accum. now rewrite fold_left_over_map.
  - intros a p Ip. destruct (Hok t p (or_introl eq_refl) Ip) as [It Hn].
    now apply score_entry_ok.
Qed.

(** [score_tt] runs to completion and yields [score_val] as soon as every
    document it visits has a norm whose product with the query normalizer
    is not zero. *)
Lemma score_tt_with_ok (query : list string) :
  (forall t p, In t query -> In p (postings index t) ->
               exists n, Dict.get (fst p) doc_norm = Some n
                         /\ qnorm_val w query * n <> 0) ->
  score_tt_with index doc_len idf_fn doc_norm query
  = Ok (score_val index doc_len w doc_norm query).
Proof.
  intros Hok. unfold score_tt_with. rewrite compute_qnorm_ok, bind_Ok.
  apply score_loop_ok. intros t p It Ip. split; [exact It|].
  exact (Hok t p It Ip).
Qed.
End ScorerFacts.

(** ** Removing a term without postings *)

Lemma flat_map_remove {B : Type} (f : string -> list B) (t0 : string)
    (q : list string) :
  f t0 = [] -> flat_map f (remove string_dec t0 q) = flat_map f q.
Proof.
  intros E0. induction q as [|x r IH]; simpl; [reflexivity|].
  destruct (string_dec t0 x) as [E|E]; simpl.
  - subst x. now rewrite E0, IH.
  - now rewrite IH.
Qed.

(** ** The scorer on an index made by the builder *)

Lemma postings_in_terms (index : InvIndex) (t : string) (p : nat * Z) :
  In p (postings index t) -> In t (terms index).
Proof.
  unfold postings, terms, Dict.get_default.
  destruct (Dict.get t (self_idx index)) eqn:G; [|intros []].
  intros _. now apply DictFacts.get_Some_In_keys in G.
Qed.

Lemma built_len_ok (m : Dict string (list Z)) (t : string) (d : nat) (f : Z) :
  In (d, f) (postings (mkInvIndex (fst (build_index m))) t) ->
  exists L, Dict.get d (snd (build_index m)) = Some L /\ IZR L <> 0.
Proof.
  intros I. apply built_postings_in_all in I.
  destruct (built_doclen_pos _ _ _ I) as [L [G P]].
  exists L. split; [exact G|]. apply not_0_IZR. lia.
Qed.

Lemma built_freq_nonzero (m : Dict string (list Z)) (t : string) (d : nat) (f : Z) :
  In (d, f) (postings (mkInvIndex (fst (build_index m))) t) -> IZR f <> 0.
Proof.
  intros I. apply built_postings_in_all, all_entries_pos in I. simpl in I.
  apply not_0_IZR. lia.
Qed.

(** ** The notebook's index *)

Lemma inv_idx_eq :
  inv_idx = [ ("beijing", [(1%nat, 1%Z); (4%nat, 1%Z)]);
              ("dish", [(1%nat, 1%Z); (4%nat, 1%Z)]);
              ("duck", [(0%nat, 3%Z); (1%nat, 2%Z); (2%nat, 2%Z); (4%nat, 1%Z)]);
              ("rabbit", [(2%nat, 1%Z); (3%nat, 1%Z)]);
              ("recipe", [(2%nat, 1%Z); (3%nat, 1%Z); (4%nat, 1%Z)]);
              ("roast", []) ].
Proof. reflexivity. Qed.

Lemma doclen_eq :
  doclen = [ (1%nat, 4%Z); (4%nat, 4%Z); (0%nat, 3%Z); (2%nat, 4%Z); (3%nat, 2%Z) ].
Proof. reflexivity. Qed.

(** Every term of the notebook's index that has postings occurs in fewer
    than [NUM_DOCS] documents. *)
Lemma idx_postings_short (t : string) :
  postings idx t <> [] ->
  (0 < List.length (postings idx t) < NUM_DOCS)%nat.
Proof.
  unfold postings, Dict.get_default.
  change (self_idx idx) with inv_idx. rewrite inv_idx_eq.
  match goal with |- context [Dict.get t ?l] =>
    destruct (Dict.get t l) as [pl|] eqn:G; [|congruence] end.
  apply DictFacts.get_In in G.
  intros N. unfold NUM_DOCS.
  repeat (destruct G as [G|G];
          [inversion G; subst; simpl; try lia; congruence|]).
  destruct G.
Qed.

Lemma idx_idf_nonzero (t : string) :
  postings idx t <> [] -> idf_val idx t <> 0.
Proof.
  intros N. apply idx_postings_short in N. destruct N as [P U].
  unfold idf_val.
  replace (0 <? List.length (postings idx t))%nat with true
    by (symmetry; now apply Nat.ltb_lt).
  apply lt_0_INR in P. apply lt_INR in U. rewrite INR_NUM_DOCS in *.
  apply Rgt_not_eq. rewrite <- ln_1. apply ln_increasing; [lra|].
  apply Rmult_lt_reg_r with (r := INR (List.length (postings idx t))); [exact P|].
  unfold Rdiv. rewrite Rmult_assoc, Rinv_l by lra. lra.
Qed.

Lemma docnorm_eq : docnorm = Ok docnorm_table.
Proof.
  unfold docnorm, docnorm_table. apply compute_docnorm_ok.
  - apply idf_total.
  - intros t d f. apply (built_len_ok td_matrix).
Qed.

Lemma idx_docnorm_pos (t : string) (p : nat * Z) :
  In p (postings idx t) ->
  exists n, Dict.get (fst p) docnorm_table = Some n /\ 0 < n.
Proof.
  destruct p as [d f]. intros I. unfold docnorm_table.
  apply docnorm_val_pos with (t := t) (f := f).
  - intros t0 d0 f0. apply (built_len_ok td_matrix).
  - now apply postings_in_terms in I.
  - exact I.
  - now apply (built_freq_nonzero td_matrix) in I.
  - apply idx_idf_nonzero. intros E. rewrite E in I. destruct I.
Qed.

(** On the notebook's index [score_tt] raises for no query. *)
Lemma score_tt_eq (query : list string) :
  score_tt query = Ok (score_val idx doclen (idf_val idx) docnorm_table query).
Proof.
  unfold score_tt. rewrite docnorm_eq, bind_Ok.
  apply score_tt_with_ok.
  - apply idf_total.
  - intros t d f. apply (built_len_ok td_matrix).
  - intros t p It Ip. destruct (idx_docnorm_pos _ _ Ip) as [n [G P]].
    exists n. split; [exact G|].
    assert (0 < qnorm_val (idf_val idx) query).
    { apply qnorm_val_pos with (t := t); [exact It|].
      apply idx_idf_nonzero. intros E. rewrite E in Ip. destruct Ip. }
    apply Rgt_not_eq. now apply Rmult_lt_0_compat.
Qed.

(** C10: for the empty query [score_tt] returns the empty mapping and raises
    nothing: neither loop runs, so no division is evaluated, although the
    query normalizer is 0. *)
Theorem score_tt_empty_query :
  compute_qnorm (idf idx) [] = Ok 0 /\ score_tt [] = Ok [].
Proof.
  split.
  - unfold compute_qnorm. simpl. rewrite math_sqrt_ok by lra. now rewrite sqrt_0.
  - rewrite score_tt_eq. reflexivity.
Qed.

(** ** Scaling the IDF *)

Lemma math_sqrt_scale (c x : R) :
  0 < c -> math_sqrt (c ^ 2 * x) = fmap (Rmult c) (math_sqrt x).
Proof.
  intros Pc. assert (P2 : 0 < c ^ 2) by nra.
  unfold math_sqrt.
  destruct (Rlt_dec (c ^ 2 * x) 0) as [L|L], (Rlt_dec x 0) as [L'|L'];
    try reflexivity; try (exfalso; nra).
  unfold fmap. rewrite bind_Ok. f_equal. rewrite sqrt_mult_alt by lra.
  rewrite sqrt_pow2 by lra. reflexivity.
Qed.

Lemma scale_set (c v : R) (k : nat) (d : Dict nat R) :
  scale c (Dict.set k v d) = Dict.set k (c * v) (scale c d).
Proof.
  unfold scale. symmetry.
  exact (set_map_values (fun x => c * x) k v d).
Qed.

Lemma get_scale (c : R) (k : nat) (d : Dict nat R) :
  Dict.get k (scale c d) = option_map (Rmult c) (Dict.get k d).
Proof. unfold scale. exact (get_map_values (fun x => c * x) k d). Qed.

Lemma get_default_scale (c : R) (k : nat) (d : Dict nat R) :
  Dict.get_default k 0 (scale c d) = c * Dict.get_default k 0 d.
Proof.
  unfold Dict.get_default. rewrite get_scale.
  destruct (Dict.get k d); simpl; [reflexivity|ring].
Qed.

Lemma subscript_scale (c : R) (k : nat) (d : Dict nat R) :
  Dict.subscript k (scale c d) = fmap (Rmult c) (Dict.subscript k d).
Proof.
  unfold Dict.subscript. rewrite get_scale.
  destruct (Dict.get k d); reflexivity.
Qed.

Lemma keys_scale (c : R) (d : Dict nat R) : Dict.keys (scale c d) = Dict.keys d.
Proof. unfold scale. apply keys_map_values. Qed.

Lemma scale_app (c : R) (d1 d2 : Dict nat R) :
  scale c (d1 ++ d2) = scale c d1 ++ scale c d2.
Proof. unfold scale. apply map_app. Qed.

Lemma sqrt_item_scale (c v : R) (k : nat) :
  0 < c ->
  sqrt_item (k, c ^ 2 * v)
  = fmap (fun kv => (fst kv, c * snd kv)) (sqrt_item (k, v)).
Proof.
  intros Pc. unfold sqrt_item. cbn [fst snd].
  rewrite math_sqrt_scale by assumption.
  destruct (math_sqrt v); reflexivity.
Qed.

Lemma mapM_sqrt_scale (c : R) (d : Dict nat R) :
  0 < c -> mapM sqrt_item (scale (c ^ 2) d) = fmap (scale c) (mapM sqrt_item d).
Proof.
  intros Pc. induction d as [|[k v] r IH]; [reflexivity|].
  cbn [scale map mapM fst snd]. fold (scale (c ^ 2) r).
  rewrite IH, sqrt_item_scale by assumption.
  destruct (sqrt_item (k, v)); [|reflexivity].
  destruct (mapM sqrt_item r); reflexivity.
Qed.

Section Scaling.
Variable index : InvIndex.
Variable doc_len : Dict nat Z.
Variables idf1 idf2 : string -> result R.
Variable c : R.

Hypothesis c_pos : 0 < c.
Hypothesis idf_rel : forall t, idf2 t = fmap (Rmult c) (idf1 t).

Lemma docnorm_entry_scale (t : string) (acc : Dict nat R) (p : nat * Z) :
  docnorm_entry doc_len idf2 t (scale (c ^ 2) acc) p
  = fmap (scale (c ^ 2)) (docnorm_entry doc_len idf1 t acc p).
Proof.
  destruct p as [d f]. unfold docnorm_entry.
  destruct (Dict.subscript d doc_len) as [L|e]; simpl; [|reflexivity].
  destruct (py_div (IZR f) (IZR L)) as [tf|e]; simpl; [|reflexivity].
  rewrite idf_rel. destruct (idf1 t) as [i|e]; simpl; [|reflexivity].
  f_equal. rewrite scale_set, get_default_scale. f_equal. ring.
Qed.

Lemma docnorm_sums_scale (ts : list string) (acc : Dict nat R) :
  foldM (docnorm_term index doc_len idf2) ts (scale (c ^ 2) acc)
  = fmap (scale (c ^ 2)) (foldM (docnorm_term index doc_len idf1) ts acc).
Proof.
  apply foldM_sim. intros a t _. unfold docnorm_term.
  apply foldM_sim. intros a0 p _. apply docnorm_entry_scale.
Qed.

Lemma docnorm_sums_NoDup (idf_fn : string -> result R) (ts : list string)
    (acc sums : Dict nat R) :
  NoDup (Dict.keys acc) ->
  foldM (docnorm_term index doc_len idf_fn) ts acc = Ok sums ->
  NoDup (Dict.keys sums).
Proof.
  intros ND0.
  apply (foldM_inv (fun a => NoDup (Dict.keys a))); [|exact ND0].
  intros a t a1 _ ND. unfold docnorm_term.
  apply (foldM_inv (fun a => NoDup (Dict.keys a))); [|exact ND].
  clear. intros a [d f] a1 _ ND.
  unfold docnorm_entry.
  destruct (Dict.subscript d doc_len); simpl; [|discriminate].
  destruct (py_div (IZR f) (IZR a0)); simpl; [|discriminate].
  destruct (idf_fn t); simpl; [|discriminate].
  intros E. inversion E; subst. now apply DictFacts.NoDup_keys_set.
Qed.

(** The norms under the scaled IDF are the norms scaled by [c]; the cell
    raises under one IDF exactly when it raises under the other. *)
Lemma compute_docnorm_scale :
  compute_docnorm index doc_len idf2
  = fmap (scale c) (compute_docnorm index doc_len idf1).
Proof.
  unfold compute_docnorm.
  pose proof (docnorm_sums_scale (terms index) []) as S.
  change (scale (c ^ 2) []) with (@nil (nat * R)) in S. rewrite S. clear S.
  destruct (foldM (docnorm_term index doc_len idf1) (terms index) [])
    as [sums|e] eqn:F; [|reflexivity].
  assert (ND : NoDup (Dict.keys sums)).
  { eapply docnorm_sums_NoDup; [|exact F]. constructor. }
  unfold fmap at 1. rewrite !bind_Ok, keys_scale.
  pose proof (docnorm_sqrt_loop [] (scale (c ^ 2) sums)) as L2.
  pose proof (docnorm_sqrt_loop [] sums ND) as L1.
  cbn [app] in L1, L2. rewrite keys_scale in L2. rewrite L2 by exact ND.
  rewrite L1, mapM_sqrt_scale by exact c_pos.
  destruct (mapM sqrt_item sums); reflexivity.
Qed.

Lemma qnorm_loop_scale (query l : list string) (s : R) :
  foldM (qnorm_term idf2 query) l (c ^ 2 * s)
  = fmap (Rmult (c ^ 2)) (foldM (qnorm_term idf1 query) l s).
Proof.
  apply (foldM_sim (Rmult (c ^ 2))). intros s0 t _. unfold qnorm_term.
  destruct (py_div _ _) as [tf|e]; simpl; [|reflexivity].
  rewrite idf_rel. destruct (idf1 t) as [i|e]; simpl; [|reflexivity].
  f_equal. ring.
Qed.

Lemma compute_qnorm_scale (query : list string) :
  compute_qnorm idf2 query = fmap (Rmult c) (compute_qnorm idf1 query).
Proof.
  unfold compute_qnorm.
  replace 0 with (c ^ 2 * 0) at 1 by ring. rewrite qnorm_loop_scale.
  destruct (foldM (qnorm_term idf1 query) (nodup string_dec query) 0)
    as [s|e]; simpl; [|reflexivity].
  now apply math_sqrt_scale.
Qed.

Lemma score_entry_scale (doc_norm : Dict nat R) (query : list string)
    (qnorm : R) (t : string) (acc : Dict nat R) (p : nat * Z) :
  score_entry doc_len idf2 (scale c doc_norm) query (c * qnorm) t acc p
  = score_entry doc_len idf1 doc_norm query qnorm t acc p.
Proof.
  destruct p as [d f]. unfold score_entry.
  destruct (Dict.subscript d doc_len) as [L|e]; simpl; [|reflexivity].
  destruct (py_div (IZR f) (IZR L)) as [tf|e]; simpl; [|reflexivity].
  rewrite idf_rel. destruct (idf1 t) as [i|e]; simpl; [|reflexivity].
  destruct (py_div 1 (INR (List.length query))) as [tq|e]; simpl; [|reflexivity].
  rewrite subscript_scale.
  destruct (Dict.subscript d doc_norm) as [n|e]; simpl; [|reflexivity].
  assert (E : py_div (tq * (c * i) * (tf * (c * i))) (c * qnorm * (c * n))
              = py_div (tq * i * (tf * i)) (qnorm * n)).
  { unfold py_div.
    destruct (Req_dec_T (c * qnorm * (c * n)) 0) as [Z1|Z1],
             (Req_dec_T (qnorm * n) 0) as [Z2|Z2]; try reflexivity.
    - exfalso. apply Z2.
      assert (c ^ 2 * (qnorm * n) = 0) by (rewrite <- Z1; ring).
      assert (c ^ 2 <> 0) by nra.
      destruct (Rmult_integral _ _ H); tauto.
    - exfalso. apply Z1. replace (c * qnorm * (c * n)) with (c ^ 2 * (qnorm * n)) by ring.
      rewrite Z2. ring.
    - f_equal.
      assert (qnorm <> 0 /\ n <> 0)
        by (split; intros X; apply Z2; rewrite X; ring).
      field. intuition lra. }
  rewrite E. reflexivity.
Qed.

Lemma score_tt_with_scale (doc_norm : Dict nat R) (query : list string) :
  score_tt_with index doc_len idf2 (scale c doc_norm) query
  = score_tt_with index doc_len idf1 doc_norm query.
Proof.
  unfold score_tt_with. rewrite compute_qnorm_scale.
  destruct (compute_qnorm idf1 query) as [qn|e]; simpl; [|reflexivity].
  apply foldM_ext. intros a t _. unfold score_term_loop.
  apply foldM_ext. intros a0 p _. apply score_entry_scale.
Qed.

(** The whole pipeline, from the docnorm cell to the scores. *)
Lemma pipeline_scale (query : list string) :
  (dn <- compute_docnorm index doc_len idf2 ;;
   score_tt_with index doc_len idf2 dn query)
  = (dn <- compute_docnorm index doc_len idf1 ;;
     score_tt_with index doc_len idf1 dn query).
Proof.
  rewrite compute_docnorm_scale.
  destruct (compute_docnorm index doc_len idf1) as [dn|e]; simpl; [|reflexivity].
  apply score_tt_with_scale.
Qed.
End Scaling.

Lemma idf_spec_scales_idf (index : InvIndex) (t : string) :
  idf_spec index t = fmap (Rmult (/ ln 10)) (idf index t).
Proof.
  rewrite idf_spec_total, idf_total. simpl. f_equal. unfold Rdiv. ring.
Qed.

(** In exact arithmetic the base of the logarithm cancels: with the base-10
    logarithm in place of the natural one the cells return the same result
    for every query, and raise in the same cases. *)
Lemma score_tt_exact_log_base (query : list string) :
  score_tt_spec query = score_tt query.
Proof.
  unfold score_tt_spec, score_tt, docnorm_spec, docnorm.
  apply pipeline_scale with (c := / ln 10).
  - apply Rinv_0_lt_compat. pose proof ln_10_gt_1. lra.
  - apply idf_spec_scales_idf.
Qed.

(** ** The keys of the scores *)

Lemma In_fold_add_key (l : list nat) (ks : list nat) (d : nat) :
  In d (fold_left add_key l ks) <-> In d ks \/ In d l.
Proof.
  revert ks. induction l as [|k r IH]; intros ks; cbn [fold_left].
  - simpl. tauto.
  - rewrite IH. unfold add_key.
    destruct (in_dec Nat.eq_dec k ks) as [I|I].
    + simpl. intuition congruence.
    + rewrite in_app_iff. simpl. tauto.
Qed.

Lemma In_first_seen (l : list nat) (d : nat) : In d (first_seen l) <-> In d l.
Proof. unfold first_seen. rewrite In_fold_add_key. simpl. tauto. Qed.

Lemma visited_perm (index : InvIndex) (q q' : list string) (d : nat) :
  Permutation q q' -> (In d (visited index q) <-> In d (visited index q')).
Proof.
  intros P. unfold visited.
  assert (P2 : Permutation (flat_map (postings index) q)
                           (flat_map (postings index) q'))
    by now apply Permutation_flat_map.
  split; intros I.
  - eapply Permutation_in; [apply Permutation_map; exact P2|exact I].
  - eapply Permutation_in;
      [apply Permutation_map; apply Permutation_sym; exact P2|exact I].
Qed.

Lemma visited_remove (index : InvIndex) (t : string) (q : list string) :
  postings index t = [] ->
  visited index (remove string_dec t q) = visited index q.
Proof. intros E. unfold visited. now rewrite flat_map_remove. Qed.

(** In exact arithmetic the keys of the scores are the visited documents, in
    the order of their first visit. *)
Lemma score_val_keys (index : InvIndex) (dl : Dict nat Z) (w : string -> R)
    (dn : Dict nat R) (q : list string) :
  Dict.keys (score_val index dl w dn q) = first_seen (visited index q).
Proof.
  unfold score_val. rewrite keys_accum. unfold first_seen, visited.
  cbn [Dict.keys map]. f_equal.
  unfold score_pairs.
  generalize (List.length q), (qnorm_val w q). intros n qn.
  induction q as [|t r IH]; [reflexivity|].
  cbn [flat_map]. rewrite !map_app, IH. f_equal.
  rewrite map_map. reflexivity.
Qed.

(** The keys of the scores over binary64, through the loops that may
    raise: they do not depend on any float. *)
Section F64Keys.
Variable index : InvIndex.
Variable doc_len : Dict nat Z.
Variable idf_fn : string -> result PrimFloat.float.
Variable doc_norm : Dict nat PrimFloat.float.
Variable query : list string.
Variable qnorm : PrimFloat.float.

Lemma f64_score_entry_keys (t : string) (acc a1 : Dict nat PrimFloat.float)
    (p : nat * Z) :
  F64.score_entry doc_len idf_fn doc_norm query qnorm t acc p = Ok a1 ->
  Dict.keys a1 = add_key (Dict.keys acc) (fst p).
Proof.
  destruct p as [d0 f]. unfold F64.score_entry.
  destruct (Dict.subscript d0 doc_len); cbn [bind]; [|discriminate].
  destruct (F64.int_div _ _); cbn [bind]; [|discriminate].
  destruct (idf_fn t); cbn [bind]; [|discriminate].
  destruct (F64.int_div _ _); cbn [bind]; [|discriminate].
  destruct (Dict.subscript d0 doc_norm); cbn [bind]; [|discriminate].
  destruct (F64.float_div _ _); cbn [bind]; [|discriminate].
  intros E. inversion E; subst. apply DictFacts.keys_set.
Qed.

Lemma f64_score_entries_keys (t : string) (ps : list (nat * Z))
    (acc a1 : Dict nat PrimFloat.float) :
  foldM (F64.score_entry doc_len idf_fn doc_norm query qnorm t) ps acc = Ok a1 ->
  Dict.keys a1 = fold_left add_key (map fst ps) (Dict.keys acc).
Proof.
  revert acc. induction ps as [|p r IH]; intros acc; cbn [foldM map fold_left].
  - intros E. now inversion E.
  - destruct (F64.score_entry _ _ _ _ _ _ acc p) as [a0|e] eqn:S; cbn [bind];
      [|discriminate].
    intros F. rewrite (IH _ F). now rewrite (f64_score_entry_keys _ _ _ _ S).
Qed.

Lemma f64_score_terms_keys (ts : list string)
    (acc a1 : Dict nat PrimFloat.float) :
  foldM (F64.score_term_loop index doc_len idf_fn doc_norm query qnorm) ts acc
  = Ok a1 ->
  Dict.keys a1 = fold_left add_key (visited index ts) (Dict.keys acc).
Proof.
  revert acc. induction ts as [|t r IH]; intros acc; cbn [foldM].
  - intros E. now inversion E.
  - destruct (F64.score_term_loop _ _ _ _ _ _ acc t) as [a0|e] eqn:S;
      cbn [bind]; [|discriminate].
    intros F. rewrite (IH _ F). unfold F64.score_term_loop in S.
    rewrite (f64_score_entries_keys _ _ _ _ S).
    unfold visited. cbn [flat_map]. now rewrite map_app, fold_left_app.
Qed.
End F64Keys.

Lemma f64_score_tt_with_keys (index : InvIndex) (dl : Dict nat Z)
    (idf_fn : string -> result PrimFloat.float)
    (dn : Dict nat PrimFloat.float) (qs q : list string)
    (s : Dict nat PrimFloat.float) :
  F64.score_tt_with index dl idf_fn dn qs q = Ok s ->
  Dict.keys s = first_seen (visited index q).
Proof.
  unfold F64.score_tt_with.
  destruct (F64.compute_qnorm _ _ _) as [qn|e]; cbn [bind]; [|discriminate].
  intros F. now rewrite (f64_score_terms_keys _ _ _ _ _ _ _ _ _ F).
Qed.

Lemma f64_run_cells_keys (log : PrimFloat.float -> result PrimFloat.float)
    (m : Dict string (list Z)) (qs q : list string)
    (s : Dict nat PrimFloat.float) :
  F64.run_cells_with log m qs q = Ok s ->
  Dict.keys s = first_seen (visited (mkInvIndex (fst (build_index m))) q).
Proof.
  unfold F64.run_cells_with.
  destruct (F64.compute_docnorm _ _ _) as [dn|e]; cbn [bind]; [|discriminate].
  apply f64_score_tt_with_keys.
Qed.

Lemma Permutation_length_3_inv {A : Type} (a b c : A) (l : list A) :
  Permutation [a; b; c] l ->
  l = [a; b; c] \/ l = [a; c; b] \/ l = [b; a; c] \/ l = [b; c; a]
  \/ l = [c; a; b] \/ l = [c; b; a].
Proof.
  intros P. pose proof (Permutation_length P) as L.
  destruct l as [|x [|y [|z [|? ?]]]]; try discriminate L. clear L.
  assert (Ix : In x [a; b; c])
    by (eapply Permutation_in; [apply Permutation_sym; exact P|now left]).
  destruct Ix as [E|[E|[E|[]]]]; subst x.
  - apply Permutation_cons_inv in P.
    apply Permutation_length_2_inv in P. destruct P as [E|E]; inversion E; auto.
  - assert (P2 : Permutation (b :: [a; c]) (b :: [y; z])).
    { eapply Permutation_trans; [apply perm_swap|exact P]. }
    apply Permutation_cons_inv in P2.
    apply Permutation_length_2_inv in P2.
    destruct P2 as [E|E]; inversion E; auto 10.
  - assert (P2 : Permutation (c :: [a; b]) (c :: [y; z])).
    { eapply Permutation_trans; [|exact P].
      eapply Permutation_trans; [apply perm_swap|].
      apply perm_skip. apply perm_swap. }
    apply Permutation_cons_inv in P2.
    apply Permutation_length_2_inv in P2.
    destruct P2 as [E|E]; inversion E; auto 10.
Qed.

(** ** Query order, absent terms and the logarithm base over binary64 *)

(** Evaluation of a closed computation over binary64. *)
Ltac f64_eval :=
  lazymatch goal with
  | |- ?l = _ =>
      let v := eval vm_compute in l in
      transitivity v; [vm_compute; reflexivity | reflexivity]
  end.

Ltac f64_differs :=
  do 4 eexists;
  (split; [f64_eval|]); (split; [f64_eval|]);
  (split; [reflexivity|]); (split; [reflexivity|]); f64_eval.

Lemma score_tt_some_keys (q : list string) :
  exists s, score_tt q = Ok s /\ Dict.keys s = first_seen (visited idx q).
Proof.
  eexists. split; [apply score_tt_eq|]. apply score_val_keys.
Qed.

Lemma set_order_1 (a : string) (l qs : list string) :
  nodup string_dec l = [a] -> set_order l qs -> qs = [a].
Proof.
  unfold set_order. intros E P. rewrite E in P.
  now apply Permutation_length_1_inv in P.
Qed.

Lemma set_order_2 (a b : string) (l qs : list string) :
  nodup string_dec l = [a; b] -> set_order l qs -> qs = [a; b] \/ qs = [b; a].
Proof.
  unfold set_order. intros E P. rewrite E in P.
  now apply Permutation_length_2_inv in P.
Qed.

Lemma set_order_3 (a b c : string) (l qs : list string) :
  nodup string_dec l = [a; b; c] -> set_order l qs ->
  qs = [a; b; c] \/ qs = [a; c; b] \/ qs = [b; a; c] \/ qs = [b; c; a]
  \/ qs = [c; a; b] \/ qs = [c; b; a].
Proof.
  unfold set_order. intros E P. rewrite E in P.
  now apply Permutation_length_3_inv in P.
Qed.











(** ** Bounds on the exponential and the logarithm *)

Lemma exp_term_eq (x : R) (k : nat) : exp_term x k = x ^ k / INR (fact k).
Proof.
  induction k as [|k IH].
  - simpl. field.
  - cbn [exp_term]. rewrite IH, fact_simpl, mult_INR. cbn [pow].
    field. split; [apply INR_fact_neq_0 | apply not_0_INR; discriminate].
Qed.

Lemma exp_psum_E1 (x : R) (n : nat) : exp_psum x n = E1 x n.
Proof.
  unfold E1. induction n as [|n IH].
  - simpl. field.
  - cbn [exp_psum sum_f_R0]. rewrite IH, exp_term_eq. unfold Rdiv. ring.
Qed.

Lemma exp_term_nonneg (x : R) (k : nat) : 0 <= x -> 0 <= exp_term x k.
Proof.
  intros Px. rewrite exp_term_eq. apply Rmult_le_pos.
  - now apply pow_le.
  - left. apply Rinv_0_lt_compat, INR_fact_lt_0.
Qed.

Lemma exp_lower (x : R) (n : nat) : 0 <= x -> exp_psum x n <= exp x.
Proof.
  intros Px. rewrite exp_psum_E1.
  apply (growing_ineq (E1 x) (exp x)); [|apply E1_cvg].
  intros k. rewrite <- !exp_psum_E1. cbn [exp_psum].
  pose proof (exp_term_nonneg x (S k) Px). lra.
Qed.

Lemma exp_neg_lower (x : R) (N : nat) :
  0 <= x <= 1 -> exp_psum (- x) (S (2 * N)) <= exp (- x).
Proof.
  intros [Px Ux].
  set (Un := fun n : nat => x ^ n / INR (fact n)).
  assert (S1 : forall n, sum_f_R0 (tg_alt Un) n = E1 (- x) n).
  { intros n. unfold E1. apply sum_eq. intros i _. unfold tg_alt, Un.
    replace (- x) with (-1 * x) by ring. rewrite Rpow_mult_distr.
    unfold Rdiv. ring. }
  rewrite exp_psum_E1, <- S1.
  apply (alternated_series_ineq Un (exp (- x)) N).
  - intros n. unfold Un. rewrite <- !exp_term_eq. cbn [exp_term].
    pose proof (exp_term_nonneg x n Px) as T.
    assert (P : 0 < INR (S n)) by (apply lt_0_INR; lia).
    assert (I : 1 <= INR (S n)) by (rewrite S_INR; pose proof (pos_INR n); lra).
    unfold Rdiv. rewrite Rmult_assoc.
    rewrite <- (Rmult_1_r (exp_term x n)) at 2.
    apply Rmult_le_compat_l; [exact T|].
    apply Rmult_le_reg_r with (r := INR (S n)); [exact P|].
    rewrite Rmult_assoc, Rinv_l by lra. lra.
  - apply cv_speed_pow_fact.
  - intros eps He. destruct (E1_cvg (- x) eps He) as [M HM].
    exists M. intros n Hn. rewrite S1. now apply HM.
Qed.

Lemma ln_upper_bound (y U : R) (n : nat) :
  0 <= U -> 0 < y -> y <= exp_psum U n -> ln y <= U.
Proof.
  intros PU Py Hy. pose proof (exp_lower U n PU) as E.
  rewrite <- (ln_exp U).
  destruct (Rle_lt_or_eq_dec y (exp U)) as [L|L]; [lra| |].
  - left. now apply ln_increasing.
  - right. now rewrite L.
Qed.

Lemma ln_lower_bound (y L : R) (N : nat) :
  0 <= L <= 1 -> 0 < y -> 1 <= y * exp_psum (- L) (S (2 * N)) -> L <= ln y.
Proof.
  intros HL Py Hy. pose proof (exp_neg_lower L N HL) as E.
  rewrite exp_Ropp in E. pose proof (exp_pos L) as PE.
  assert (X : exp L <= y).
  { assert (1 <= y * / exp L) by nra.
    apply Rmult_le_compat_r with (r := exp L) in H; [|lra].
    rewrite Rmult_assoc, Rinv_l in H by lra. lra. }
  rewrite <- (ln_exp L).
  destruct (Rle_lt_or_eq_dec (exp L) y) as [Lt|Eq]; [lra| |].
  - left. now apply ln_increasing.
  - right. now rewrite Eq.
Qed.

Lemma ln_5_2_bounds : 916290 / 1000000 <= ln (5 / 2) <= 916291 / 1000000.
Proof.
  split.
  - apply (ln_lower_bound (5/2) (916290/1000000) 6); [lra|lra|].
    cbn [Nat.mul Nat.add exp_psum exp_term INR]. lra.
  - apply (ln_upper_bound (5/2) (916291/1000000) 12); [lra|lra|].
    cbn [exp_psum exp_term INR]. lra.
Qed.

(** ** Interval arithmetic for the worked example *)

Lemma sq_between (lo hi x : R) :
  0 <= lo -> lo <= x <= hi -> lo * lo <= x * x <= hi * hi.
Proof. intros; nra. Qed.

Lemma sqrt_between (lo hi x : R) :
  0 <= lo -> 0 <= hi -> lo * lo <= x <= hi * hi -> lo <= sqrt x <= hi.
Proof.
  intros Pl Ph [L U]. split.
  - rewrite <- (sqrt_square lo Pl). now apply sqrt_le_1_alt.
  - rewrite <- (sqrt_square hi Ph). now apply sqrt_le_1_alt.
Qed.

Lemma mult_between (xl xh yl yh x y : R) :
  xl <= x <= xh -> yl <= y <= yh -> 0 <= xl -> 0 <= yl ->
  xl * yl <= x * y <= xh * yh.
Proof. intros; nra. Qed.

Lemma div_between (lo hi s d : R) :
  0 < d -> lo * d < s -> s < hi * d -> lo < s / d < hi.
Proof.
  intros Pd L U. split.
  - apply Rmult_lt_reg_r with (r := d); [exact Pd|].
    unfold Rdiv. rewrite Rmult_assoc, Rinv_l by lra. lra.
  - apply Rmult_lt_reg_r with (r := d); [exact Pd|].
    unfold Rdiv. rewrite Rmult_assoc, Rinv_l by lra. lra.
Qed.

Section ExampleBounds.
Variables a b c : R.
Hypothesis Ha : 916290 / 1000000 <= a <= 916291 / 1000000.
Hypothesis Hb : 223143 / 1000000 <= b <= 223144 / 1000000.
Hypothesis Hc : 510825 / 1000000 <= c <= 510826 / 1000000.

Local Abbreviation qn := (ex_qnorm a b c).
Local Abbreviation n1 := (ex_docnorm1 a b c).
Local Abbreviation n4 := (ex_docnorm4 a b c).
Local Abbreviation n0 := (ex_docnorm0 a b c).
Local Abbreviation n2 := (ex_docnorm2 a b c).
Local Abbreviation n3 := (ex_docnorm3 a b c).

Lemma sq_a : (916290 / 1000000) * (916290 / 1000000) <= a * a
             <= (916291 / 1000000) * (916291 / 1000000).
Proof. apply sq_between; lra. Qed.
Lemma sq_b : (223143 / 1000000) * (223143 / 1000000) <= b * b
             <= (223144 / 1000000) * (223144 / 1000000).
Proof. apply sq_between; lra. Qed.
Lemma sq_c : (510825 / 1000000) * (510825 / 1000000) <= c * c
             <= (510826 / 1000000) * (510826 / 1000000).
Proof. apply sq_between; lra. Qed.

Lemma qn_bounds : 35751027 / 100000000 <= qn <= 35751079 / 100000000.
Proof.
  pose proof sq_a; pose proof sq_b; pose proof sq_c.
  apply sqrt_between; [lra|lra|]. split; nra.
Qed.

Lemma n1_bounds : 34263190 / 100000000 <= n1 <= 34263240 / 100000000.
Proof.
  pose proof sq_a; pose proof sq_b; pose proof sq_c.
  apply sqrt_between; [lra|lra|]. split; nra.
Qed.

Lemma n4_bounds : 35266039 / 100000000 <= n4 <= 35266086 / 100000000.
Proof.
  pose proof sq_a; pose proof sq_b; pose proof sq_c.
  apply sqrt_between; [lra|lra|]. split; nra.
Qed.

Lemma n0_bounds : 22314300 / 100000000 <= n0 <= 22314400 / 100000000.
Proof.
  pose proof sq_a; pose proof sq_b; pose proof sq_c.
  apply sqrt_between; [lra|lra|]. split; nra.
Qed.

Lemma n2_bounds : 28501104 / 100000000 <= n2 <= 28501156 / 100000000.
Proof.
  pose proof sq_a; pose proof sq_b; pose proof sq_c.
  apply sqrt_between; [lra|lra|]. split; nra.
Qed.

Lemma n3_bounds : 52453063 / 100000000 <= n3 <= 52453132 / 100000000.
Proof.
  pose proof sq_a; pose proof sq_b; pose proof sq_c.
  apply sqrt_between; [lra|lra|]. split; nra.
Qed.

Lemma score_D2 :
  6385 / 10000 <
  0 + 1 / 3 * a * (1 / 4 * a) / (qn * n1) + 1 / 3 * b * (2 / 4 * b) / (qn * n1)
  < 6395 / 10000.
Proof.
  pose proof sq_a as SA; pose proof sq_b as SB; pose proof sq_c as SC.
  pose proof qn_bounds as Q; pose proof n1_bounds as N.
  pose proof (mult_between _ _ _ _ qn n1 Q N ltac:(lra) ltac:(lra)) as D.
  replace (0 + 1 / 3 * a * (1 / 4 * a) / (qn * n1)
           + 1 / 3 * b * (2 / 4 * b) / (qn * n1))
    with ((1 / 12 * (a * a) + 2 / 12 * (b * b)) / (qn * n1)) by (field; repeat split; lra).
  apply div_between; [lra| |]; nra.
Qed.

Lemma score_D5 :
  7595 / 10000 <
  0 + 1 / 3 * a * (1 / 4 * a) / (qn * n4) + 1 / 3 * b * (1 / 4 * b) / (qn * n4)
  + 1 / 3 * c * (1 / 4 * c) / (qn * n4)
  < 7605 / 10000.
Proof.
  pose proof sq_a as SA; pose proof sq_b as SB; pose proof sq_c as SC.
  pose proof qn_bounds as Q; pose proof n4_bounds as N.
  pose proof (mult_between _ _ _ _ qn n4 Q N ltac:(lra) ltac:(lra)) as D.
  replace (0 + 1 / 3 * a * (1 / 4 * a) / (qn * n4)
           + 1 / 3 * b * (1 / 4 * b) / (qn * n4)
           + 1 / 3 * c * (1 / 4 * c) / (qn * n4))
    with ((1 / 12 * (a * a) + 1 / 12 * (b * b) + 1 / 12 * (c * c)) / (qn * n4))
    by (field; repeat split; lra).
  apply div_between; [lra| |]; nra.
Qed.

Lemma score_D1 :
  2075 / 10000 < 0 + 1 / 3 * b * (3 / 3 * b) / (qn * n0) < 2085 / 10000.
Proof.
  pose proof sq_a as SA; pose proof sq_b as SB; pose proof sq_c as SC.
  pose proof qn_bounds as Q; pose proof n0_bounds as N.
  pose proof (mult_between _ _ _ _ qn n0 Q N ltac:(lra) ltac:(lra)) as D.
  replace (0 + 1 / 3 * b * (3 / 3 * b) / (qn * n0))
    with ((1 / 3 * (b * b)) / (qn * n0)) by (field; repeat split; lra).
  apply div_between; [lra| |]; nra.
Qed.

Lemma score_D3 :
  2945 / 10000 <
  0 + 1 / 3 * b * (2 / 4 * b) / (qn * n2) + 1 / 3 * c * (1 / 4 * c) / (qn * n2)
  < 2955 / 10000.
Proof.
  pose proof sq_a as SA; pose proof sq_b as SB; pose proof sq_c as SC.
  pose proof qn_bounds as Q; pose proof n2_bounds as N.
  pose proof (mult_between _ _ _ _ qn n2 Q N ltac:(lra) ltac:(lra)) as D.
  replace (0 + 1 / 3 * b * (2 / 4 * b) / (qn * n2)
           + 1 / 3 * c * (1 / 4 * c) / (qn * n2))
    with ((2 / 12 * (b * b) + 1 / 12 * (c * c)) / (qn * n2)) by (field; repeat split; lra).
  apply div_between; [lra| |]; nra.
Qed.

Lemma score_D4 :
  2315 / 10000 < 0 + 1 / 3 * c * (1 / 2 * c) / (qn * n3) < 2325 / 10000.
Proof.
  pose proof sq_a as SA; pose proof sq_b as SB; pose proof sq_c as SC.
  pose proof qn_bounds as Q; pose proof n3_bounds as N.
  pose proof (mult_between _ _ _ _ qn n3 Q N ltac:(lra) ltac:(lra)) as D.
  replace (0 + 1 / 3 * c * (1 / 2 * c) / (qn * n3))
    with ((1 / 6 * (c * c)) / (qn * n3)) by (field; repeat split; lra).
  apply div_between; [lra| |]; nra.
Qed.
End ExampleBounds.

Lemma ln_5_4_bounds : 223143 / 1000000 <= ln (5 / 4) <= 223144 / 1000000.
Proof.
  split.
  - apply (ln_lower_bound (5/4) (223143/1000000) 4); [lra|lra|].
    cbn [Nat.mul Nat.add exp_psum exp_term INR]. lra.
  - apply (ln_upper_bound (5/4) (223144/1000000) 8); [lra|lra|].
    cbn [exp_psum exp_term INR]. lra.
Qed.

Lemma ln_5_3_bounds : 510825 / 1000000 <= ln (5 / 3) <= 510826 / 1000000.
Proof.
  split.
  - apply (ln_lower_bound (5/3) (510825/1000000) 5); [lra|lra|].
    cbn [Nat.mul Nat.add exp_psum exp_term INR]. lra.
  - apply (ln_upper_bound (5/3) (510826/1000000) 10); [lra|lra|].
    cbn [exp_psum exp_term INR]. lra.
Qed.

(** ** Rounding and sorting *)

Lemma round_half_even_near (x : R) (m : Z) :
  IZR m - 1 / 2 < x < IZR m + 1 / 2 -> round_half_even x = m.
Proof.
  intros [L U]. unfold round_half_even, frac_part.
  destruct (Rle_lt_dec (IZR m) x) as [G|G].
  - assert (E : m = Int_part x) by (apply Int_part_spec; lra).
    rewrite <- E. destruct (Rlt_dec (x - IZR m) (1 / 2)); [reflexivity|lra].
  - assert (E : (m - 1)%Z = Int_part x).
    { apply Int_part_spec. rewrite minus_IZR. lra. }
    rewrite <- E. rewrite minus_IZR.
    destruct (Rlt_dec (x - (IZR m - 1)) (1 / 2)); [lra|].
    destruct (Rlt_dec (1 / 2) (x - (IZR m - 1))); [f_equal; lia|lra].
Qed.

Lemma round3_near (x : R) (m : Z) :
  (2 * IZR m - 1) / 2000 < x < (2 * IZR m + 1) / 2000 -> round3 x = m.
Proof. intros [L U]. apply round_half_even_near. lra. Qed.

Lemma sorted_desc_example (v1 v4 v0 v2 v3 : R) :
  v1 < v4 -> v2 < v1 -> v3 < v2 -> v0 < v3 ->
  sorted_desc [(1%nat, v1); (4%nat, v4); (0%nat, v0); (2%nat, v2); (3%nat, v3)]
  = [(4%nat, v4); (1%nat, v1); (2%nat, v2); (3%nat, v3); (0%nat, v0)].
Proof.
  intros. unfold sorted_desc. simpl.
  repeat (match goal with
          | |- context [Rlt_dec ?x ?y] => destruct (Rlt_dec x y); try lra; simpl
          end).
  reflexivity.
Qed.

(** ** The worked example *)

Lemma docnorm_table_eq :
  docnorm_table =
  [(1%nat, sqrt (0 + (1 / 4 * ln (5 / 2)) ^ 2 + (1 / 4 * ln (5 / 2)) ^ 2
                 + (2 / 4 * ln (5 / 4)) ^ 2));
   (4%nat, sqrt (0 + (1 / 4 * ln (5 / 2)) ^ 2 + (1 / 4 * ln (5 / 2)) ^ 2
                 + (1 / 4 * ln (5 / 4)) ^ 2 + (1 / 4 * ln (5 / 3)) ^ 2));
   (0%nat, sqrt (0 + (3 / 3 * ln (5 / 4)) ^ 2));
   (2%nat, sqrt (0 + (2 / 4 * ln (5 / 4)) ^ 2 + (1 / 4 * ln (5 / 2)) ^ 2
                 + (1 / 4 * ln (5 / 3)) ^ 2));
   (3%nat, sqrt (0 + (1 / 2 * ln (5 / 2)) ^ 2 + (1 / 2 * ln (5 / 3)) ^ 2))].
Proof.
  unfold docnorm_table.
  cbv - [Rplus Rmult Rdiv Rinv sqrt ln IZR INR pow Rminus Ropp].
  replace (INR 5 / INR 2) with (5 / 2) by (simpl; lra).
  replace (INR 5 / INR 3) with (5 / 3) by (simpl; lra).
  replace (INR 5 / INR 4) with (5 / 4) by (simpl; lra).
  reflexivity.
Qed.

Lemma example_qnorm_eq :
  qnorm_val (idf_val idx) ["beijing"; "duck"; "recipe"]
  = sqrt (0 + (1 / 3 * ln (5 / 2)) ^ 2 + (1 / 3 * ln (5 / 4)) ^ 2
          + (1 / 3 * ln (5 / 3)) ^ 2).
Proof.
  cbv - [Rplus Rmult Rdiv Rinv sqrt ln IZR INR pow Rminus Ropp].
  replace (INR 5 / INR 2) with (5 / 2) by (simpl; lra).
  replace (INR 5 / INR 3) with (5 / 3) by (simpl; lra).
  replace (INR 5 / INR 4) with (5 / 4) by (simpl; lra).
  replace (INR 1 / INR 3) with (1 / 3) by (simpl; lra).
  reflexivity.
Qed.

Lemma example_scores_eq :
  exists v1 v4 v0 v2 v3 : R,
    score_tt ["beijing"; "duck"; "recipe"]
    = Ok [(1%nat, v1); (4%nat, v4); (0%nat, v0); (2%nat, v2); (3%nat, v3)]
    /\ 6385 / 10000 < v1 < 6395 / 10000
    /\ 7595 / 10000 < v4 < 7605 / 10000
    /\ 2075 / 10000 < v0 < 2085 / 10000
    /\ 2945 / 10000 < v2 < 2955 / 10000
    /\ 2315 / 10000 < v3 < 2325 / 10000.
Proof.
  pose proof ln_5_2_bounds as Ha.
  pose proof ln_5_4_bounds as Hb.
  pose proof ln_5_3_bounds as Hc.
  do 5 eexists. split.
  - rewrite score_tt_eq. f_equal. unfold score_val.
    rewrite example_qnorm_eq, docnorm_table_eq.
    cbv - [Rplus Rmult Rdiv Rinv sqrt ln IZR INR pow Rminus Ropp].
    replace (INR 5 / INR 2) with (5 / 2) by (simpl; lra).
    replace (INR 5 / INR 3) with (5 / 3) by (simpl; lra).
    replace (INR 5 / INR 4) with (5 / 4) by (simpl; lra).
    replace (INR 3) with 3 by (simpl; lra).
    reflexivity.
  - split; [|split; [|split; [|split]]].
    + exact (score_D2 _ _ _ Ha Hb Hc).
    + exact (score_D5 _ _ _ Ha Hb Hc).
    + exact (score_D1 _ _ _ Ha Hb Hc).
    + exact (score_D3 _ _ _ Ha Hb Hc).
    + exact (score_D4 _ _ _ Ha Hb Hc).
Qed.

(** C1: for the notebook's matrix and the query beijing, duck, recipe,
    [score_tt] followed by the display loop (sort by descending score, print
    document [d] as D(d+1), round to 3 decimals) prints exactly the lines
    D5: 0.76, D2: 0.639, D3: 0.295, D4: 0.232, D1: 0.208. *)
Theorem worked_example_ranking :
  exists scores,
    score_tt ["beijing"; "duck"; "recipe"] = Ok scores
    /\ display scores
       = ["D5: 0.76"; "D2: 0.639"; "D3: 0.295"; "D4: 0.232"; "D1: 0.208"].
Proof.
  destruct example_scores_eq as (v1 & v4 & v0 & v2 & v3 & E & B1 & B4 & B0 & B2 & B3).
  eexists. split; [exact E|].
  unfold display, Dict.items.
  rewrite sorted_desc_example by lra.
  cbn [map]. unfold display_line. cbn [fst snd].
  rewrite (round3_near v4 760), (round3_near v1 639), (round3_near v2 295),
    (round3_near v3 232), (round3_near v0 208) by lra.
  reflexivity.
Qed.

(** ** Instances of the theorems that carry hypotheses *)

Lemma td_matrix_keys_NoDup : NoDup (Dict.keys td_matrix).
Proof.
  unfold td_matrix, Dict.keys. simpl.
  repeat (constructor; [simpl; intuition discriminate|]). constructor.
Qed.

Lemma doclen_is_sum_of_frequencies_witness :
  NoDup (Dict.keys td_matrix)
  /\ (exists t f, In (0%nat, f) (postings (mkInvIndex (fst (build_index td_matrix))) t))
  /\ Dict.get 0%nat (snd (build_index td_matrix))
     = Some (total_recorded 0 (fst (build_index td_matrix)))
  /\ (Forall (fun tv => Forall (fun f => (0 <= f)%Z) (snd tv)) (Dict.items td_matrix) ->
      total_recorded 0 (fst (build_index td_matrix))
      = Zsum (map (fun tv => nth 0 (snd tv) 0%Z) (Dict.items td_matrix))).
Proof.
  assert (H2 : exists t f,
             In (0%nat, f) (postings (mkInvIndex (fst (build_index td_matrix))) t)).
  { exists "duck", 3%Z. left. reflexivity. }
  exact (conj td_matrix_keys_NoDup
           (conj H2 (doclen_is_sum_of_frequencies td_matrix 0
                       td_matrix_keys_NoDup H2))).
Defined.

Lemma postings_stored_or_empty_witness :
  (exists pl, Dict.get "duck" (self_idx idx) = Some pl
              /\ In ("duck", pl) (Dict.items (self_idx idx))
              /\ postings idx "duck" = pl)
  /\ postings idx "goose" = [].
Proof.
  split.
  - apply (proj1 (postings_stored_or_empty idx "duck")).
    right; right; left; reflexivity.
  - apply (proj2 (postings_stored_or_empty idx "goose")).
    simpl. intuition discriminate.
Defined.


(** * Further properties of the notebook's code *)

(** ** The index builder on any matrix *)

Lemma In_enumerate_from {A : Type} (s d : nat) (x : A) (vec : list A) :
  In (d, x) (combine (seq s (List.length vec)) vec)
  <-> (s <= d)%nat /\ nth_error vec (d - s) = Some x.
Proof.
  revert s. induction vec as [|y r IH]; intros s.
  - simpl. split; [tauto|]. intros [_ E]. destruct (d - s)%nat; discriminate.
  - cbn [List.length seq combine In]. rewrite IH. split.
    + intros [E|[L E]].
      * inversion E; subst. rewrite Nat.sub_diag. split; [lia|reflexivity].
      * split; [lia|]. replace (d - s)%nat with (S (d - S s)) by lia. exact E.
    + intros [L E]. destruct (Nat.eq_dec d s) as [D|D].
      * subst. rewrite Nat.sub_diag in E. simpl in E. left. congruence.
      * right. split; [lia|].
        replace (d - s)%nat with (S (d - S s)) in E by lia. exact E.
Qed.

Lemma In_pos_entries (d : nat) (f : Z) (vec : list Z) :
  In (d, f) (pos_entries vec) <-> nth_error vec d = Some f /\ (0 < f)%Z.
Proof.
  unfold pos_entries, enumerate. rewrite filter_In, In_enumerate_from.
  simpl. rewrite Nat.sub_0_r, Z.ltb_lt. intuition lia.
Qed.

Lemma fst_enumerate_from_sorted {A : Type} (P : nat * A -> bool) (s : nat)
    (vec : list A) :
  StronglySorted lt (map fst (filter P (combine (seq s (List.length vec)) vec))).
Proof.
  revert s. induction vec as [|y r IH]; intros s; [constructor|].
  cbn [List.length seq combine filter].
  destruct (P (s, y)); [|apply IH].
  cbn [map fst]. constructor; [apply IH|].
  apply Forall_forall. intros d I. apply in_map_iff in I.
  destruct I as [[d' x] [E I]]. simpl in E. subst d'.
  apply filter_In in I. destruct I as [I _].
  apply In_enumerate_from in I. lia.
Qed.

(** The stored postings of a term of a matrix with unique keys. *)
Lemma built_postings_of_row (m : Dict string (list Z)) (t : string) (vec : list Z) :
  NoDup (Dict.keys m) -> In (t, vec) m ->
  postings (mkInvIndex (fst (build_index m))) t = pos_entries vec.
Proof.
  intros ND I. rewrite build_index_eq. cbn [fst].
  rewrite built_inv_map by exact ND. cbn [app].
  unfold postings, Dict.get_default. cbn [self_idx].
  rewrite (DictFacts.In_get t (pos_entries vec)).
  - reflexivity.
  - unfold Dict.keys. rewrite map_map. exact ND.
  - apply in_map_iff. exists (t, vec). auto.
Qed.

(** X1: a posting [(d, f)] is stored for a term of the matrix exactly when
    the term's row holds the frequency [f] at position [d] and [f] is
    positive: zero and negative entries are left out, nothing else is. *)
Theorem built_postings_iff_positive_entry (m : Dict string (list Z))
    (t : string) (vec : list Z) (d : nat) (f : Z) :
  NoDup (Dict.keys m) -> In (t, vec) (Dict.items m) ->
  (In (d, f) (postings (mkInvIndex (fst (build_index m))) t)
   <-> nth_error vec d = Some f /\ (0 < f)%Z).
Proof.
  intros ND I. unfold Dict.items in I.
  rewrite (built_postings_of_row m t vec ND I). apply In_pos_entries.
Qed.

(** X2: the index built from a matrix with unique keys has the matrix's
    terms, in the matrix's order, also those whose row holds no positive
    entry; a term that is not in the matrix has no postings. *)
Theorem built_terms_are_matrix_keys (m : Dict string (list Z)) :
  NoDup (Dict.keys m) ->
  terms (mkInvIndex (fst (build_index m))) = Dict.keys m
  /\ forall t, ~ In t (Dict.keys m) ->
               postings (mkInvIndex (fst (build_index m))) t = [].
Proof.
  intros ND. rewrite build_index_eq. cbn [fst].
  rewrite built_inv_map by exact ND. cbn [app].
  assert (K : Dict.keys (map (fun tv : string * list Z =>
                                (fst tv, pos_entries (snd tv))) m)
              = Dict.keys m).
  { unfold Dict.keys. rewrite map_map. reflexivity. }
  split.
  - unfold terms. cbn [self_idx]. exact K.
  - intros t N. unfold postings, Dict.get_default. cbn [self_idx].
    rewrite <- K in N. apply DictFacts.get_None_iff in N. now rewrite N.
Qed.

(** X3: every posting list of a built index, for any matrix and any term,
    lists its documents in strictly increasing order (so no document
    twice) and holds positive frequencies only. *)
Theorem built_postings_sorted_positive (m : Dict string (list Z)) (t : string) :
  StronglySorted lt (map fst (postings (mkInvIndex (fst (build_index m))) t))
  /\ Forall (fun p => (0 < snd p)%Z)
            (postings (mkInvIndex (fst (build_index m))) t).
Proof.
  rewrite build_index_eq. unfold postings, Dict.get_default. cbn [fst self_idx].
  destruct (Dict.get t _) as [pl|] eqn:G.
  - apply built_postings_row in G. destruct G as [[vec [_ E]]|G]; [|discriminate].
    subst pl. split.
    + apply fst_enumerate_from_sorted.
    + apply Forall_forall. intros p I. apply filter_In in I.
      now apply Z.ltb_lt.
  - split; constructor.
Qed.

(** ** The length table on any matrix *)

Lemma In_all_entries (m : Dict string (list Z)) (p : nat * Z) :
  In p (all_entries m) <-> exists t vec, In (t, vec) m /\ In p (pos_entries vec).
Proof.
  unfold all_entries. rewrite in_flat_map. split.
  - intros [[t vec] [I Ip]]. exists t, vec. auto.
  - intros [t [vec [I Ip]]]. exists (t, vec). auto.
Qed.

(** X4: for a matrix with unique keys, the documents that have a length are
    exactly the documents of the posting lists. *)
Theorem doclen_keys_are_posting_documents (m : Dict string (list Z)) (d : nat) :
  NoDup (Dict.keys m) ->
  (In d (Dict.keys (snd (build_index m)))
   <-> exists t f, In (d, f) (postings (mkInvIndex (fst (build_index m))) t)).
Proof.
  intros ND.
  assert (K : In d (Dict.keys (snd (build_index m)))
              <-> In d (map fst (all_entries m))).
  { rewrite build_index_eq. cbn [snd]. rewrite accum_In_keys. simpl. tauto. }
  rewrite K. clear K. split.
  - intros I. apply in_map_iff in I. destruct I as [[d' f] [E I]].
    simpl in E. subst d'. apply In_all_entries in I.
    destruct I as [t [vec [It Ip]]]. exists t, f.
    now rewrite (built_postings_of_row m t vec ND It).
  - intros [t [f I]]. apply built_postings_in_all in I.
    change d with (fst (d, f)). now apply in_map.
Qed.

Lemma Zsum_member_le (l : list Z) (x : Z) :
  Forall (fun y => (0 < y)%Z) l -> In x l -> (x <= Zsum l)%Z.
Proof.
  induction 1 as [|y r Hy Hr IH]; simpl; [tauto|].
  assert (0 <= Zsum r)%Z by (clear -Hr; induction Hr; simpl; lia).
  intros [E|I]; [lia|]. specialize (IH I). lia.
Qed.

(** X5: for any matrix, every posting [(d, f)] finds a length for [d] that
    is at least [f], and [f] is positive: the division [freq / doclen[doc_id]]
    meets neither a missing key nor a zero divisor, in exact arithmetic and
    over binary64 alike. *)
Theorem posting_frequency_within_length (m : Dict string (list Z))
    (t : string) (d : nat) (f : Z) :
  In (d, f) (postings (mkInvIndex (fst (build_index m))) t) ->
  exists L, Dict.subscript d (snd (build_index m)) = Ok L
            /\ (0 < f <= L)%Z
            /\ (exists tf, py_div (IZR f) (IZR L) = Ok tf)
            /\ (exists tf, F64.int_div f L = Ok tf).
Proof.
  intros I. apply built_postings_in_all in I.
  pose proof (all_entries_pos m _ I) as Pf. simpl in Pf.
  unfold Dict.subscript.
  rewrite build_index_eq. cbn [snd]. rewrite accum_get_Z.
  destruct (in_dec Nat.eq_dec d (map fst (all_entries m))) as [_|N].
  2:{ exfalso. apply N. change d with (fst (d, f)). now apply in_map. }
  eexists. split; [reflexivity|].
  assert (Le : (f <= Zsum (values_at d (all_entries m)))%Z).
  { apply Zsum_member_le; [|now apply In_values_at].
    apply Forall_forall. intros y Iy. apply In_values_at in Iy.
    now apply all_entries_pos in Iy. }
  set (L := Zsum (values_at d (all_entries m))) in *.
  split; [lia|]. split.
  - eexists. apply py_div_ok. apply Rgt_not_eq. apply IZR_lt. lia.
  - unfold F64.int_div. destruct (Z.eqb_spec L 0) as [E|_]; [lia|].
    eexists. reflexivity.
Qed.

Lemma Zsum_values_set (k : nat) (v : Z) (d : Dict nat Z) :
  Zsum (map snd (Dict.set k (Dict.get_default k 0 d + v)%Z d))
  = (Zsum (map snd d) + v)%Z.
Proof.
  unfold Dict.get_default.
  induction d as [|[k0 v0] r IH]; simpl; [lia|].
  destruct (eq_dec k k0) as [E|E]; simpl; [lia|].
  rewrite IH. lia.
Qed.

Lemma Zsum_values_accum (l : list (nat * Z)) (d : Dict nat Z) :
  Zsum (map snd (accum Z.add 0%Z l d)) = (Zsum (map snd d) + Zsum (map snd l))%Z.
Proof.
  revert d. induction l as [|[k v] r IH]; intros d; simpl; [lia|].
  rewrite IH. unfold accum_step. cbn [fst snd]. rewrite Zsum_values_set. lia.
Qed.

Lemma Zsum_pos_entries_from (s : nat) (vec : list Z) :
  Zsum (map snd (filter (fun p : nat * Z => (0 <? snd p)%Z)
                        (combine (seq s (List.length vec)) vec)))
  = Zsum (map (Z.max 0) vec).
Proof.
  assert (C : forall x l, Zsum (x :: l) = (x + Zsum l)%Z) by reflexivity.
  revert s. induction vec as [|f r IH]; intros s; [reflexivity|].
  cbn [List.length seq combine filter snd].
  destruct (0 <? f)%Z eqn:P; cbn [map snd]; rewrite ?C, IH.
  - apply Z.ltb_lt in P. now rewrite Z.max_r by lia.
  - apply Z.ltb_ge in P. now rewrite Z.max_l by lia.
Qed.

(** X6: the lengths of all documents add up to the sum of the positive
    entries of the matrix: no occurrence is counted twice or lost. *)
Theorem doclen_total_is_matrix_total (m : Dict string (list Z)) :
  Zsum (map snd (Dict.items (snd (build_index m))))
  = Zsum (map (fun tv => Zsum (map (Z.max 0) (snd tv))) (Dict.items m)).
Proof.
  rewrite build_index_eq. cbn [snd]. unfold Dict.items.
  rewrite Zsum_values_accum. simpl.
  unfold all_entries. induction m as [|tv r IH]; simpl; [reflexivity|].
  rewrite map_app, Zsum_app, IH. f_equal.
  unfold pos_entries, enumerate. apply Zsum_pos_entries_from.
Qed.

(** ** IDF on any index *)

Lemma ln_pos_iff (x : R) : 0 < x -> (0 < ln x <-> 1 < x).
Proof.
  intros Px. rewrite <- ln_1. split.
  - apply ln_lt_inv; lra.
  - apply ln_increasing; lra.
Qed.

Lemma ln_neg_iff (x : R) : 0 < x -> (ln x < 0 <-> x < 1).
Proof.
  intros Px. rewrite <- ln_1. split.
  - apply ln_lt_inv; lra.
  - now apply ln_increasing.
Qed.

Lemma ratio_vs_one (n : nat) :
  (0 < n)%nat ->
  (1 < INR NUM_DOCS / INR n <-> (n < NUM_DOCS)%nat)
  /\ (INR NUM_DOCS / INR n < 1 <-> (NUM_DOCS < n)%nat)
  /\ 0 < INR NUM_DOCS / INR n.
Proof.
  intros Pn. apply lt_0_INR in Pn.
  assert (E : forall x, x / INR n * INR n = x) by (intros; field; lra).
  repeat split.
  - intros H. apply INR_lt.
    apply Rmult_lt_compat_r with (r := INR n) in H; [|exact Pn].
    rewrite E in H. lra.
  - intros H. apply lt_INR in H.
    apply Rmult_lt_reg_r with (r := INR n); [exact Pn|]. rewrite E. lra.
  - intros H. apply INR_lt.
    apply Rmult_lt_compat_r with (r := INR n) in H; [|exact Pn].
    rewrite E in H. lra.
  - intros H. apply lt_INR in H.
    apply Rmult_lt_reg_r with (r := INR n); [exact Pn|]. rewrite E. lra.
  - apply Rdiv_lt_0_compat; [rewrite INR_NUM_DOCS; lra | exact Pn].
Qed.

(** X7: [idf] raises for no index and no term, and the sign of its value
    follows the document frequency [n]: positive when [0 < n < NUM_DOCS],
    zero exactly when [n = 0] or [n = NUM_DOCS], negative when the term has
    more postings than [NUM_DOCS] (which is set by hand). *)
Theorem idf_sign_by_document_frequency (index : InvIndex) (term : string) :
  exists v, idf index term = Ok v
    /\ (0 < v <-> (0 < List.length (postings index term) < NUM_DOCS)%nat)
    /\ (v = 0 <-> List.length (postings index term) = 0%nat
                  \/ List.length (postings index term) = NUM_DOCS)
    /\ (v < 0 <-> (NUM_DOCS < List.length (postings index term))%nat).
Proof.
  exists (idf_val index term). split; [apply idf_total|].
  unfold idf_val. set (n := List.length (postings index term)).
  destruct (0 <? n)%nat eqn:P.
  - apply Nat.ltb_lt in P. destruct (ratio_vs_one n P) as (G & L & Pos).
    pose proof (ln_pos_iff _ Pos) as LP. pose proof (ln_neg_iff _ Pos) as LN.
    split; [|split].
    + rewrite LP, G. lia.
    + split.
      * intros Z0. right.
        destruct (Nat.lt_total n NUM_DOCS) as [C|[C|C]]; [|exact C|].
        -- apply G, LP in C. lra.
        -- apply L, LN in C. lra.
      * intros [C|C]; [lia|].
        rewrite C. unfold Rdiv. rewrite Rinv_r; [apply ln_1|].
        rewrite INR_NUM_DOCS. lra.
    + rewrite LN, L. tauto.
  - apply Nat.ltb_ge in P. assert (n = 0%nat) by lia.
    split; [|split].
    + split; [lra|lia].
    + split; [intros _; now left | reflexivity].
    + split; [lra|unfold NUM_DOCS; lia].
Qed.

(** X8: of two terms that occur in some document, the one with the longer
    posting list has the smaller IDF. *)
Theorem idf_decreases_with_document_frequency (index : InvIndex)
    (t1 t2 : string) (v1 v2 : R) :
  idf index t1 = Ok v1 -> idf index t2 = Ok v2 ->
  (0 < List.length (postings index t1) < List.length (postings index t2))%nat ->
  v2 < v1.
Proof.
  rewrite !idf_total. intros E1 E2 [P L].
  inversion E1; inversion E2; subst. unfold idf_val.
  replace (0 <? List.length (postings index t1))%nat with true
    by (symmetry; now apply Nat.ltb_lt).
  replace (0 <? List.length (postings index t2))%nat with true
    by (symmetry; apply Nat.ltb_lt; lia).
  assert (P1 : 0 < INR (List.length (postings index t1))) by now apply lt_0_INR.
  assert (L' : INR (List.length (postings index t1))
               < INR (List.length (postings index t2))) by now apply lt_INR.
  rewrite INR_NUM_DOCS. apply ln_increasing.
  - apply Rdiv_lt_0_compat; lra.
  - unfold Rdiv. apply Rmult_lt_compat_l; [lra|].
    apply Rinv_lt_contravar; [|exact L']. apply Rmult_lt_0_compat; lra.
Qed.

(** ** The cells on any matrix *)

Lemma score_tt_is_run_cells (query : list string) :
  score_tt query = run_cells td_matrix query.
Proof. reflexivity. Qed.

Section BuiltScorer.
Variable m : Dict string (list Z).

Local Abbreviation index := (mkInvIndex (fst (build_index m))).
Local Abbreviation dl := (snd (build_index m)).
Local Abbreviation w := (idf_val (mkInvIndex (fst (build_index m)))).
Local Abbreviation dn := (docnorm_val (mkInvIndex (fst (build_index m)))
                            (snd (build_index m))
                            (idf_val (mkInvIndex (fst (build_index m))))).

Lemma built_len_ok_all :
  forall t d f, In (d, f) (postings index t) ->
                exists L, Dict.get d dl = Some L /\ IZR L <> 0.
Proof. intros t d f. apply built_len_ok. Qed.

Lemma built_docnorm_ok : compute_docnorm index dl (idf index) = Ok dn.
Proof. apply compute_docnorm_ok; [apply idf_total | apply built_len_ok_all]. Qed.

(** Every document of a posting has a norm, which is not negative. *)
Lemma built_docnorm_key (t : string) (d : nat) (f : Z) :
  In (d, f) (postings index t) ->
  exists n, Dict.get d dn = Some n /\ 0 <= n.
Proof.
  intros I. rewrite docnorm_val_get.
  destruct (in_dec Nat.eq_dec d (map fst (docnorm_pairs index dl w))) as [_|N].
  - eexists. split; [reflexivity|]. apply sqrt_pos.
  - exfalso. apply N. unfold docnorm_pairs. apply in_map_iff.
    exists (d, tfidf_td dl w t (d, f) ^ 2). split; [reflexivity|].
    apply in_flat_map. exists t. split; [now apply postings_in_terms in I|].
    apply in_map_iff. exists (d, f). auto.
Qed.

Lemma built_docnorm_pos (t : string) (d : nat) (f : Z) :
  In (d, f) (postings index t) -> w t <> 0 ->
  exists n, Dict.get d dn = Some n /\ 0 < n.
Proof.
  intros I W.
  apply docnorm_val_pos with (t := t) (f := f).
  - apply built_len_ok_all.
  - now apply postings_in_terms in I.
  - exact I.
  - now apply built_freq_nonzero in I.
  - exact W.
Qed.

Lemma run_cells_unfold (q : list string) :
  run_cells m q = score_tt_with index dl (idf index) dn q.
Proof. unfold run_cells. now rewrite built_docnorm_ok. Qed.

(** The cells return [score_val] when every term with postings has a
    non-zero IDF. *)
Lemma run_cells_ok (q : list string) :
  (forall t, In t q -> postings index t <> [] -> w t <> 0) ->
  run_cells m q = Ok (score_val index dl w dn q).
Proof.
  intros Hw. rewrite run_cells_unfold. apply score_tt_with_ok.
  - apply idf_total.
  - apply built_len_ok_all.
  - intros t [d f] It Ip.
    assert (W : w t <> 0).
    { apply Hw; [exact It|]. intros E. rewrite E in Ip. destruct Ip. }
    destruct (built_docnorm_pos t d f Ip W) as [n [G P]].
    exists n. split; [exact G|].
    assert (0 < qnorm_val w q) by (apply qnorm_val_pos with (t := t); assumption).
    apply Rgt_not_eq. now apply Rmult_lt_0_compat.
Qed.

Lemma idf_val_nonzero (t : string) :
  postings index t <> [] ->
  List.length (postings index t) <> NUM_DOCS -> w t <> 0.
Proof.
  intros NE NN. unfold idf_val.
  destruct (postings index t) as [|p r] eqn:E; [congruence|].
  set (n := List.length (p :: r)) in *.
  assert (Pn : (0 < n)%nat) by (unfold n; simpl; lia).
  replace (0 <? n)%nat with true by (symmetry; now apply Nat.ltb_lt).
  destruct (ratio_vs_one n Pn) as (G & L & Pos).
  destruct (Nat.lt_total n NUM_DOCS) as [C|[C|C]]; [|contradiction|].
  - apply G, (ln_pos_iff _ Pos) in C. lra.
  - apply L, (ln_neg_iff _ Pos) in C. lra.
Qed.
End BuiltScorer.

(** X9: when no term of the matrix occurs in exactly [NUM_DOCS] documents,
    the cells raise for no query: every division of the docnorm cell and of
    [score_tt] has a non-zero divisor. *)
Theorem run_cells_never_raises (m : Dict string (list Z)) :
  (forall t, List.length (postings (mkInvIndex (fst (build_index m))) t)
             <> NUM_DOCS) ->
  forall q, exists scores, run_cells m q = Ok scores.
Proof.
  intros H q. eexists. apply run_cells_ok.
  intros t _ NE. now apply idf_val_nonzero.
Qed.

(** The length found for the document of a posting, and the signs. *)
Lemma posting_len (m : Dict string (list Z)) (t : string) (d : nat) (f : Z) :
  In (d, f) (postings (mkInvIndex (fst (build_index m))) t) ->
  exists L, Dict.get d (snd (build_index m)) = Some L /\ 0 < IZR L /\ 0 < IZR f.
Proof.
  intros I. apply built_postings_in_all in I.
  pose proof (all_entries_pos m _ I) as Pf. simpl in Pf.
  destruct (built_doclen_pos m d f I) as [L [G P]].
  exists L. split; [exact G|]. split; apply IZR_lt; lia.
Qed.

Lemma qnorm_val_zero (w : string -> R) (q : list string) :
  (forall t, In t q -> w t = 0) -> qnorm_val w q = 0.
Proof.
  intros Hw. unfold qnorm_val. rewrite qnorm_sq_eq.
  replace (Rsum _) with 0; [apply sqrt_0|].
  symmetry. assert (G : forall l, (forall t, In t l -> In t q) ->
    Rsum (map (fun t => (INR (count_occ string_dec q t)
                         / INR (List.length q) * w t) ^ 2) l) = 0).
  { unfold Rsum. induction l as [|t r IH]; intros Hl; [reflexivity|].
    cbn [map fold_right]. rewrite IH by (intros; apply Hl; now right).
    rewrite (Hw t) by (apply Hl; now left). ring. }
  apply G. intros t I. now apply nodup_In in I.
Qed.

(** X10: a query whose terms all have IDF 0, one of them with a posting,
    makes [score_tt] raise [ZeroDivisionError]: the query normalizer is 0
    and the first posting visited divides by [qnorm * docnorm[doc_id]].
    A term that occurs in exactly [NUM_DOCS] documents is such a term. *)
Theorem run_cells_zero_idf_query_raises (m : Dict string (list Z))
    (q : list string) :
  (forall t, In t q -> idf (mkInvIndex (fst (build_index m))) t = Ok 0) ->
  (exists t p, In t q /\ In p (postings (mkInvIndex (fst (build_index m))) t)) ->
  run_cells m q = Raise ZeroDivisionError.
Proof.
  intros Hz Hp. rewrite run_cells_unfold. unfold score_tt_with.
  set (index := mkInvIndex (fst (build_index m))) in *.
  set (w := idf_val index).
  assert (W0 : forall t, In t q -> w t = 0).
  { intros t I. specialize (Hz t I). rewrite idf_total in Hz. now inversion Hz. }
  rewrite (compute_qnorm_ok (idf index) w) by apply idf_total.
  rewrite bind_Ok, (qnorm_val_zero w q W0).
  assert (NZq : INR (List.length q) <> 0).
  { destruct Hp as [t [_ [I _]]]. destruct q; [destruct I|].
    apply not_0_INR. simpl. discriminate. }
  assert (G : forall ts acc,
             (exists t p, In t ts /\ In p (postings index t)) ->
             foldM (score_term_loop index (snd (build_index m)) (idf index)
                      (docnorm_val index (snd (build_index m)) w) q 0) ts acc
             = Raise ZeroDivisionError).
  { induction ts as [|t r IH]; intros acc [t0 [p [It Ip]]]; [destruct It|].
    cbn [foldM]. unfold score_term_loop at 1.
    destruct (postings index t) as [|[d f] ps] eqn:E.
    - cbn [foldM]. rewrite bind_Ok. apply IH.
      destruct It as [Et|It]; [subst t0; rewrite E in Ip; destruct Ip|].
      exists t0, p. auto.
    - assert (I : In (d, f) (postings index t)) by (rewrite E; now left).
      destruct (built_len_ok m t d f I) as [L [GL NZ]].
      destruct (built_docnorm_key m t d f I) as [n [Gn _]].
      cbn [foldM]. unfold score_entry at 1, Dict.subscript.
      fold index in GL. fold index w in Gn. rewrite GL, Gn.
      rewrite bind_Ok, py_div_ok by exact NZ.
      rewrite bind_Ok, idf_total, bind_Ok, py_div_ok by exact NZq.
      rewrite !bind_Ok, Rmult_0_l, py_div_zero. reflexivity. }
  apply G. exact Hp.
Qed.

Lemma flat_map_nil {A B : Type} (f : A -> list B) (l : list A) :
  (forall x, In x l -> f x = []) -> flat_map f l = [].
Proof.
  induction l as [|x r IH]; intros H; simpl; [reflexivity|].
  rewrite H by now left. apply IH. intros; apply H; now right.
Qed.

(** X11: a query none of whose terms has a posting (unknown terms, terms
    with an all-zero row, the empty query) returns the empty mapping and
    raises nothing, whatever the matrix. *)
Theorem run_cells_without_postings_is_empty (m : Dict string (list Z))
    (q : list string) :
  (forall t, In t q -> postings (mkInvIndex (fst (build_index m))) t = []) ->
  run_cells m q = Ok [].
Proof.
  intros H. rewrite run_cells_ok.
  - f_equal. unfold score_val, score_pairs.
    rewrite flat_map_nil; [reflexivity|].
    intros t I. now rewrite (H t I).
  - intros t I NE. exfalso. apply NE. now apply H.
Qed.

(** ** The documents and the sign of the scores *)

Section ScoreKeys.
Variable index : InvIndex.
Variable doc_len : Dict nat Z.
Variable idf_fn : string -> result R.
Variable doc_norm : Dict nat R.
Variable query : list string.
Variable qnorm : R.

Lemma score_entry_keys (t : string) (acc a1 : Dict nat R) (p : nat * Z) (d : nat) :
  score_entry doc_len idf_fn doc_norm query qnorm t acc p = Ok a1 ->
  (In d (Dict.keys a1) <-> d = fst p \/ In d (Dict.keys acc)).
Proof.
  destruct p as [d0 f]. unfold score_entry.
  destruct (Dict.subscript d0 doc_len); cbn [bind]; [|discriminate].
  destruct (py_div _ _); cbn [bind]; [|discriminate].
  destruct (idf_fn t); cbn [bind]; [|discriminate].
  destruct (py_div _ _); cbn [bind]; [|discriminate].
  destruct (Dict.subscript d0 doc_norm); cbn [bind]; [|discriminate].
  destruct (py_div _ _); cbn [bind]; [|discriminate].
  intros E. inversion E; subst. apply DictFacts.In_keys_set.
Qed.

Lemma score_entries_keys (t : string) (ps : list (nat * Z))
    (acc a1 : Dict nat R) (d : nat) :
  foldM (score_entry doc_len idf_fn doc_norm query qnorm t) ps acc = Ok a1 ->
  (In d (Dict.keys a1) <-> In d (Dict.keys acc) \/ In d (map fst ps)).
Proof.
  revert acc. induction ps as [|p r IH]; intros acc; cbn [foldM].
  - intros E. inversion E; subst. simpl. tauto.
  - destruct (score_entry _ _ _ _ _ _ acc p) as [a0|e] eqn:S; cbn [bind];
      [|discriminate].
    intros F. rewrite (IH _ F), (score_entry_keys _ _ _ _ d S). simpl.
    intuition congruence.
Qed.

Lemma score_terms_keys (ts : list string) (acc a1 : Dict nat R) (d : nat) :
  foldM (score_term_loop index doc_len idf_fn doc_norm query qnorm) ts acc = Ok a1 ->
  (In d (Dict.keys a1)
   <-> In d (Dict.keys acc)
       \/ exists t f, In t ts /\ In (d, f) (postings index t)).
Proof.
  revert acc. induction ts as [|t r IH]; intros acc; cbn [foldM].
  - intros E. inversion E; subst. split; [tauto|].
    intros [I|[t [f [[] _]]]]. exact I.
  - destruct (score_term_loop _ _ _ _ _ _ acc t) as [a0|e] eqn:S; cbn [bind];
      [|discriminate].
    intros F. rewrite (IH _ F). unfold score_term_loop in S.
    rewrite (score_entries_keys _ _ _ _ d S). split.
    + intros [[I|I]|[t0 [f [It Ip]]]].
      * now left.
      * right. apply in_map_iff in I. destruct I as [[d' f] [E I]].
        simpl in E. subst d'. exists t, f. split; [now left|exact I].
      * right. exists t0, f. split; [now right|exact Ip].
    + intros [I|[t0 [f [[E|It] Ip]]]].
      * left. now left.
      * subst t0. left. right. change d with (fst (d, f)). now apply in_map.
      * right. exists t0, f. auto.
Qed.
End ScoreKeys.

(** X12: whenever the cells return a mapping, its keys are exactly the
    documents that occur in the posting list of some term of the query: a
    document that matches no query term is absent, not listed with 0. *)
Theorem run_cells_keys_are_matching_documents (m : Dict string (list Z))
    (q : list string) (scores : Dict nat R) (d : nat) :
  run_cells m q = Ok scores ->
  (In d (Dict.keys scores)
   <-> exists t f, In t q
                   /\ In (d, f) (postings (mkInvIndex (fst (build_index m))) t)).
Proof.
  rewrite run_cells_unfold. unfold score_tt_with.
  destruct (compute_qnorm _ q) as [qn|e]; cbn [bind]; [|discriminate].
  intros F. rewrite (score_terms_keys _ _ _ _ _ _ _ _ _ d F). simpl. tauto.
Qed.

Lemma py_div_inv (x y z : R) : py_div x y = Ok z -> y <> 0 /\ z = x / y.
Proof.
  unfold py_div. destruct (Req_dec_T y 0) as [E|N]; [discriminate|].
  intros H. inversion H. auto.
Qed.

Lemma compute_qnorm_nonneg (idf_fn : string -> result R) (q : list string)
    (qn : R) :
  compute_qnorm idf_fn q = Ok qn -> 0 <= qn.
Proof.
  unfold compute_qnorm.
  destruct (foldM _ _ _) as [s|e]; cbn [bind]; [|discriminate].
  unfold math_sqrt. destruct (Rlt_dec s 0); [discriminate|].
  intros E. inversion E. apply sqrt_pos.
Qed.

(** X13: no score of a returned mapping is negative, for any matrix and any
    query: every term added to [scores[doc_id]] is a product of two weights
    of the same sign over a positive normalizer. *)
Theorem run_cells_scores_nonnegative (m : Dict string (list Z))
    (q : list string) (scores : Dict nat R) (d : nat) (v : R) :
  run_cells m q = Ok scores -> Dict.get d scores = Some v -> 0 <= v.
Proof.
  rewrite run_cells_unfold. unfold score_tt_with.
  set (index := mkInvIndex (fst (build_index m))).
  set (dn := docnorm_val index (snd (build_index m)) (idf_val index)).
  destruct (compute_qnorm (idf index) q) as [qn|e] eqn:Q; cbn [bind];
    [|discriminate].
  apply compute_qnorm_nonneg in Q.
  intros F. revert d v.
  pose (P := fun acc : Dict nat R =>
               forall d v, Dict.get d acc = Some v -> 0 <= v).
  change (P scores).
  apply (foldM_inv P _ _ _ _) with (3 := F); [|intros d v; discriminate].
  intros a0 t a1 _ P0 T. unfold score_term_loop in T.
  apply (foldM_inv P _ _ _ _) with (3 := T); [|exact P0].
  clear a0 a1 P0 T F. intros a0 [d0 f] a1 Ip P0.
  destruct (posting_len m t d0 f Ip) as [L [GL [PL PF]]].
  destruct (built_docnorm_key m t d0 f Ip) as [n [Gn Pn]].
  unfold score_entry, Dict.subscript. fold index in GL, Gn. fold dn in Gn.
  rewrite GL, Gn. cbn [bind].
  rewrite py_div_ok by lra. cbn [bind]. rewrite idf_total. cbn [bind].
  destruct (py_div 1 _) as [tq|e] eqn:D1; cbn [bind]; [|discriminate].
  destruct (py_div _ (qn * n)) as [st|e] eqn:D2; cbn [bind]; [|discriminate].
  intros E. inversion E; subst a1. clear E.
  apply py_div_inv in D1. destruct D1 as [NZ1 ->].
  apply py_div_inv in D2. destruct D2 as [NZ2 ->].
  assert (Pl : 0 < INR (List.length q)).
  { pose proof (pos_INR (List.length q)) as H0.
    destruct H0 as [H0|H0]; [exact H0|]. now rewrite <- H0 in NZ1. }
  assert (Pc : 0 < qn * n).
  { assert (H0 : 0 <= qn * n) by now apply Rmult_le_pos.
    destruct H0 as [H0|H0]; [exact H0|]. now rewrite <- H0 in NZ2. }
  assert (Pq : 0 < qn).
  { destruct Q as [Q|Q]; [exact Q|]. rewrite <- Q, Rmult_0_l in Pc. lra. }
  assert (Pd : 0 < n).
  { destruct Pn as [Pn|Pn]; [exact Pn|]. rewrite <- Pn, Rmult_0_r in Pc. lra. }
  assert (St : 0 <= 1 / INR (List.length q) * idf_val index t
                    * (IZR f / IZR L * idf_val index t) / (qn * n)).
  { replace (1 / INR (List.length q) * idf_val index t
             * (IZR f / IZR L * idf_val index t) / (qn * n))
      with ((idf_val index t * idf_val index t)
            * (IZR f / (INR (List.length q) * IZR L * (qn * n))))
      by (field; repeat split; lra).
    apply Rmult_le_pos; [nra|]. left.
    apply Rdiv_lt_0_compat; [exact PF|].
    repeat apply Rmult_lt_0_compat; assumption. }
  intros d v. destruct (Nat.eq_dec d d0) as [->|N].
  - rewrite DictFacts.get_set_eq. intros G. inversion G; subst v.
    unfold Dict.get_default.
    destruct (Dict.get d0 a0) as [x|] eqn:Gx.
    + specialize (P0 _ _ Gx). lra.
    + lra.
  - rewrite DictFacts.get_set_neq by exact N. apply P0.
Qed.

(** ** The display loop *)

Lemma insert_desc_perm (x : nat * R) (l : list (nat * R)) :
  Permutation (insert_desc x l) (x :: l).
Proof.
  induction l as [|y r IH]; cbn [insert_desc]; [apply Permutation_refl|].
  destruct (Rlt_dec (snd x) (snd y)); [|apply Permutation_refl].
  eapply Permutation_trans; [apply perm_skip, IH | apply perm_swap].
Qed.

Lemma sorted_desc_perm (l : list (nat * R)) : Permutation (sorted_desc l) l.
Proof.
  unfold sorted_desc. induction l as [|x r IH]; cbn [fold_right]; [constructor|].
  eapply Permutation_trans; [apply insert_desc_perm | now apply perm_skip].
Qed.

Lemma insert_desc_sorted (x : nat * R) (l : list (nat * R)) :
  StronglySorted (fun a b => snd b <= snd a) l ->
  StronglySorted (fun a b => snd b <= snd a) (insert_desc x l).
Proof.
  induction 1 as [|y r S IH F]; cbn [insert_desc].
  - repeat constructor.
  - destruct (Rlt_dec (snd x) (snd y)) as [L|L].
    + constructor; [exact IH|].
      apply Forall_forall. intros z Iz.
      apply (Permutation_in _ (insert_desc_perm x r)) in Iz.
      destruct Iz as [E|Iz]; [subst; lra|].
      rewrite Forall_forall in F. now apply F.
    + constructor; [now constructor|].
      constructor; [lra|].
      apply Forall_forall. intros z Iz. rewrite Forall_forall in F.
      specialize (F _ Iz). lra.
Qed.

Lemma sorted_desc_sorted (l : list (nat * R)) :
  StronglySorted (fun a b => snd b <= snd a) (sorted_desc l).
Proof.
  unfold sorted_desc. induction l as [|x r IH]; cbn [fold_right]; [constructor|].
  now apply insert_desc_sorted.
Qed.

(** X15: the display loop prints one line for every item of the mapping, in
    an order in which no score is followed by a larger one. *)
Theorem display_is_descending_permutation (scores : Dict nat R) :
  exists ranked,
    Permutation ranked (Dict.items scores)
    /\ StronglySorted (fun a b => snd b <= snd a) ranked
    /\ display scores = map display_line ranked.
Proof.
  exists (sorted_desc (Dict.items scores)). split; [|split].
  - apply sorted_desc_perm.
  - apply sorted_desc_sorted.
  - reflexivity.
Qed.

Lemma filter_insert_desc (v : R) (x : nat * R) (l : list (nat * R)) :
  filter (fun a => if Req_dec_T (snd a) v then true else false) (insert_desc x l)
  = filter (fun a => if Req_dec_T (snd a) v then true else false) (x :: l).
Proof.
  induction l as [|y r IH]; cbn [insert_desc]; [reflexivity|].
  destruct (Rlt_dec (snd x) (snd y)) as [L|L]; [|reflexivity].
  cbn [filter] in *. rewrite IH.
  destruct (Req_dec_T (snd y) v) as [Ey|Ey], (Req_dec_T (snd x) v) as [Ex|Ex];
    try reflexivity.
  exfalso. lra.
Qed.

(** X16: the sort of the display loop is stable: the items that share a
    score are printed in the order in which the mapping holds them, which
    is the order in which [score_tt] first met their documents. *)
Theorem display_order_is_stable (v : R) (scores : Dict nat R) :
  filter (fun a => if Req_dec_T (snd a) v then true else false)
         (sorted_desc (Dict.items scores))
  = filter (fun a => if Req_dec_T (snd a) v then true else false)
           (Dict.items scores).
Proof.
  unfold sorted_desc, Dict.items.
  induction scores as [|x r IH]; [reflexivity|].
  cbn [fold_right]. rewrite filter_insert_desc. cbn [filter].
  now rewrite IH.
Qed.

Lemma round_half_even_error (x : R) :
  Rabs (x - IZR (round_half_even x)) <= 1 / 2.
Proof.
  unfold round_half_even.
  destruct (base_fp x) as [F0 F1]. unfold frac_part in *.
  set (n := Int_part x) in *.
  destruct (Rlt_dec (x - IZR n) (1 / 2)) as [L|L].
  - rewrite Rabs_pos_eq; lra.
  - assert (E1 : IZR (n + 1) = IZR n + 1) by apply plus_IZR.
    destruct (Rlt_dec (1 / 2) (x - IZR n)) as [G|G].
    + rewrite E1, Rabs_left1; lra.
    + destruct (Z.even n).
      * rewrite Rabs_pos_eq; lra.
      * rewrite E1, Rabs_left1; lra.
Qed.

(** X17: the number the display loop prints for a score is the nearest
    number of thousandths: it differs from the score by at most 0.0005, and
    a score that is a whole number of thousandths is printed as it is. *)
Theorem round3_is_nearest_thousandth (x : R) (k : Z) :
  Rabs (x - IZR (round3 x) / 1000) <= 5 / 10000
  /\ round3 (IZR k / 1000) = k.
Proof.
  split.
  - unfold round3. pose proof (round_half_even_error (x * 1000)) as E.
    replace (x - IZR (round_half_even (x * 1000)) / 1000)
      with ((x * 1000 - IZR (round_half_even (x * 1000))) / 1000) by (field; lra).
    unfold Rdiv at 1. rewrite Rabs_mult, (Rabs_pos_eq (/ 1000)) by lra. lra.
  - apply round3_near. lra.
Qed.

(** ** The norm table has the documents of the length table *)

(** X18: for a matrix with unique keys the docnorm cell runs to completion
    and the norm table has the keys of the length table, in the same order:
    [docnorm[doc_id]] is found wherever [doclen[doc_id]] is. *)
Theorem docnorm_keys_are_doclen_keys (m : Dict string (list Z)) :
  NoDup (Dict.keys m) ->
  exists dn,
    compute_docnorm (mkInvIndex (fst (build_index m))) (snd (build_index m))
                    (idf (mkInvIndex (fst (build_index m)))) = Ok dn
    /\ Dict.keys dn = Dict.keys (snd (build_index m)).
Proof.
  intros ND. eexists. split; [apply built_docnorm_ok|].
  unfold docnorm_val. rewrite keys_map_values, keys_accum.
  assert (E2 : Dict.keys (snd (build_index m))
               = fold_left (fun ks k => if in_dec eq_dec k ks then ks else ks ++ [k])
                           (map fst (all_entries m)) (Dict.keys (@nil (nat * R)))).
  { rewrite build_index_eq. cbn [snd]. now rewrite keys_accum. }
  rewrite E2. clear E2.
  f_equal. unfold docnorm_pairs, terms.
  rewrite build_index_eq. cbn [fst self_idx].
  rewrite built_inv_map by exact ND. cbn [app].
  unfold postings, Dict.get_default, all_entries. cbn [self_idx].
  set (inv := map (fun tv : string * list Z => (fst tv, pos_entries (snd tv))) m).
  assert (NDi : NoDup (Dict.keys inv)).
  { unfold inv, Dict.keys. rewrite map_map. exact ND. }
  assert (G : forall rows : Dict string (list Z),
             (forall tv, In tv rows -> In tv m) ->
             map fst (flat_map
                        (fun term => map (fun p : nat * Z =>
                             (fst p, tfidf_td (accum Z.add 0%Z
                                        (flat_map (fun tv => pos_entries (snd tv)) m) [])
                                       (idf_val (mkInvIndex inv)) term p ^ 2))
                           match Dict.get term inv with
                           | Some v => v
                           | None => []
                           end)
                        (Dict.keys (map (fun tv : string * list Z =>
                                           (fst tv, pos_entries (snd tv))) rows)))
             = map fst (flat_map (fun tv => pos_entries (snd tv)) rows)).
  { induction rows as [|[t vec] r IH]; intros Hr; [reflexivity|].
    cbn [map Dict.keys flat_map fst snd]. rewrite !map_app. f_equal.
    - rewrite (DictFacts.In_get t (pos_entries vec) inv NDi).
      + rewrite map_map. reflexivity.
      + unfold inv. apply in_map_iff. exists (t, vec). split; [reflexivity|].
        apply Hr. now left.
    - apply IH. intros; apply Hr; now right. }
  apply G. auto.
Qed.

(** ** Instances of the further properties that carry hypotheses *)

Lemma idx_never_all_docs (t : string) :
  List.length (postings (mkInvIndex (fst (build_index td_matrix))) t) <> NUM_DOCS.
Proof.
  change (mkInvIndex (fst (build_index td_matrix))) with idx.
  destruct (postings idx t) as [|p r] eqn:E; [unfold NUM_DOCS; simpl; lia|].
  assert (N : postings idx t <> []) by (rewrite E; discriminate).
  apply idx_postings_short in N. rewrite E in N. lia.
Qed.

Lemma run_cells_td_matrix (q : list string) :
  run_cells td_matrix q
  = Ok (score_val idx doclen (idf_val idx) docnorm_table q).
Proof. rewrite <- score_tt_is_run_cells. apply score_tt_eq. Qed.

Lemma idf_all_docs (index : InvIndex) (t : string) :
  List.length (postings index t) = NUM_DOCS -> idf index t = Ok 0.
Proof.
  intros E. rewrite idf_total. f_equal. unfold idf_val. rewrite E.
  cbn [Nat.ltb Nat.leb NUM_DOCS]. unfold Rdiv. rewrite Rinv_r; [apply ln_1|].
  rewrite INR_NUM_DOCS. lra.
Qed.

Lemma built_postings_iff_positive_entry_witness :
  NoDup (Dict.keys td_matrix)
  /\ In ("duck", [3; 2; 2; 0; 1]%Z) (Dict.items td_matrix)
  /\ (In (0%nat, 3%Z) (postings (mkInvIndex (fst (build_index td_matrix))) "duck")
      <-> nth_error [3; 2; 2; 0; 1]%Z 0 = Some 3%Z /\ (0 < 3)%Z).
Proof.
  assert (I : In ("duck", [3; 2; 2; 0; 1]%Z) (Dict.items td_matrix))
    by (right; right; left; reflexivity).
  exact (conj td_matrix_keys_NoDup
           (conj I (built_postings_iff_positive_entry td_matrix "duck"
                      [3; 2; 2; 0; 1]%Z 0 3 td_matrix_keys_NoDup I))).
Defined.

Lemma built_terms_are_matrix_keys_witness :
  NoDup (Dict.keys td_matrix)
  /\ terms (mkInvIndex (fst (build_index td_matrix))) = Dict.keys td_matrix
  /\ forall t, ~ In t (Dict.keys td_matrix) ->
               postings (mkInvIndex (fst (build_index td_matrix))) t = [].
Proof.
  exact (conj td_matrix_keys_NoDup
           (built_terms_are_matrix_keys td_matrix td_matrix_keys_NoDup)).
Defined.

Lemma doclen_keys_are_posting_documents_witness :
  NoDup (Dict.keys td_matrix)
  /\ (In 3%nat (Dict.keys (snd (build_index td_matrix)))
      <-> exists t f,
            In (3%nat, f) (postings (mkInvIndex (fst (build_index td_matrix))) t)).
Proof.
  exact (conj td_matrix_keys_NoDup
           (doclen_keys_are_posting_documents td_matrix 3 td_matrix_keys_NoDup)).
Defined.

Lemma posting_frequency_within_length_witness :
  In (0%nat, 3%Z) (postings (mkInvIndex (fst (build_index td_matrix))) "duck")
  /\ exists L, Dict.subscript 0%nat (snd (build_index td_matrix)) = Ok L
               /\ (0 < 3 <= L)%Z
               /\ (exists tf, py_div (IZR 3) (IZR L) = Ok tf)
               /\ (exists tf, F64.int_div 3 L = Ok tf).
Proof.
  assert (I : In (0%nat, 3%Z)
                 (postings (mkInvIndex (fst (build_index td_matrix))) "duck"))
    by (left; reflexivity).
  exact (conj I (posting_frequency_within_length td_matrix "duck" 0 3 I)).
Defined.

Lemma idf_decreases_with_document_frequency_witness :
  idf idx "beijing" = Ok (idf_val idx "beijing")
  /\ idf idx "duck" = Ok (idf_val idx "duck")
  /\ (0 < List.length (postings idx "beijing")
      < List.length (postings idx "duck"))%nat
  /\ idf_val idx "duck" < idf_val idx "beijing".
Proof.
  assert (L : (0 < List.length (postings idx "beijing")
               < List.length (postings idx "duck"))%nat) by (simpl; lia).
  exact (conj (idf_total idx "beijing")
           (conj (idf_total idx "duck")
              (conj L (idf_decreases_with_document_frequency idx "beijing" "duck"
                         _ _ (idf_total idx "beijing") (idf_total idx "duck") L)))).
Defined.

Lemma run_cells_never_raises_witness :
  (forall t, List.length (postings (mkInvIndex (fst (build_index td_matrix))) t)
             <> NUM_DOCS)
  /\ exists scores, run_cells td_matrix ["duck"; "goose"; "duck"] = Ok scores.
Proof.
  exact (conj idx_never_all_docs
           (run_cells_never_raises td_matrix idx_never_all_docs
              ["duck"; "goose"; "duck"])).
Defined.

Lemma run_cells_zero_idf_query_raises_witness :
  (forall t, In t ["the"] ->
             idf (mkInvIndex (fst (build_index [("the", [1; 1; 1; 1; 1]%Z)]))) t
             = Ok 0)
  /\ (exists t p,
         In t ["the"]
         /\ In p (postings
                    (mkInvIndex (fst (build_index [("the", [1; 1; 1; 1; 1]%Z)]))) t))
  /\ run_cells [("the", [1; 1; 1; 1; 1]%Z)] ["the"] = Raise ZeroDivisionError.
Proof.
  assert (H1 : forall t, In t ["the"] ->
             idf (mkInvIndex (fst (build_index [("the", [1; 1; 1; 1; 1]%Z)]))) t
             = Ok 0).
  { intros t [E|[]]. subst t. apply idf_all_docs. reflexivity. }
  assert (H2 : exists t p,
             In t ["the"]
             /\ In p (postings
                        (mkInvIndex (fst (build_index [("the", [1; 1; 1; 1; 1]%Z)]))) t)).
  { exists "the", (0%nat, 1%Z). split; left; reflexivity. }
  exact (conj H1 (conj H2 (run_cells_zero_idf_query_raises
                             [("the", [1; 1; 1; 1; 1]%Z)] ["the"] H1 H2))).
Defined.

Lemma run_cells_without_postings_is_empty_witness :
  (forall t, In t ["goose"; "roast"] ->
             postings (mkInvIndex (fst (build_index td_matrix))) t = [])
  /\ run_cells td_matrix ["goose"; "roast"] = Ok [].
Proof.
  assert (H : forall t, In t ["goose"; "roast"] ->
               postings (mkInvIndex (fst (build_index td_matrix))) t = []).
  { intros t [E|[E|[]]]; subst t; reflexivity. }
  exact (conj H (run_cells_without_postings_is_empty td_matrix
                   ["goose"; "roast"] H)).
Defined.

Lemma run_cells_keys_are_matching_documents_witness :
  run_cells td_matrix ["rabbit"]
  = Ok (score_val idx doclen (idf_val idx) docnorm_table ["rabbit"])
  /\ (In 2%nat (Dict.keys (score_val idx doclen (idf_val idx) docnorm_table ["rabbit"]))
      <-> exists t f,
            In t ["rabbit"]
            /\ In (2%nat, f) (postings (mkInvIndex (fst (build_index td_matrix))) t)).
Proof.
  exact (conj (run_cells_td_matrix ["rabbit"])
           (run_cells_keys_are_matching_documents td_matrix ["rabbit"] _ 2
              (run_cells_td_matrix ["rabbit"]))).
Defined.

Lemma run_cells_scores_nonnegative_witness :
  exists v,
    Dict.get 2%nat (score_val idx doclen (idf_val idx) docnorm_table ["rabbit"])
    = Some v
    /\ 0 <= v.
Proof.
  eexists. split.
  - unfold score_val.
    cbv - [Rplus Rmult Rdiv Rinv sqrt ln IZR INR pow Rminus Ropp
           docnorm_table qnorm_val idf_val].
    reflexivity.
  - apply (run_cells_scores_nonnegative td_matrix ["rabbit"]
             (score_val idx doclen (idf_val idx) docnorm_table ["rabbit"]) 2 _
             (run_cells_td_matrix ["rabbit"])).
    unfold score_val.
    cbv - [Rplus Rmult Rdiv Rinv sqrt ln IZR INR pow Rminus Ropp
           docnorm_table qnorm_val idf_val].
    reflexivity.
Defined.

Lemma docnorm_keys_are_doclen_keys_witness :
  NoDup (Dict.keys td_matrix)
  /\ exists dn,
       compute_docnorm (mkInvIndex (fst (build_index td_matrix)))
                       (snd (build_index td_matrix))
                       (idf (mkInvIndex (fst (build_index td_matrix)))) = Ok dn
       /\ Dict.keys dn = Dict.keys (snd (build_index td_matrix)).
Proof.
  exact (conj td_matrix_keys_NoDup
           (docnorm_keys_are_doclen_keys td_matrix td_matrix_keys_NoDup)).
Defined.

